(** * tapa/host/task.h: task instantiation and the host-side invoker

    A shallow embedding of [tapa::internal::accessor], [tapa::internal::invoker]
    and [tapa::task] from [tapa-lib/tapa/host/task.h], together with the
    properties of the instantiation model that the specification states.

    Conventions.
    - A C++ [int] is a [Z] kept in the 32-bit two's-complement range by
      [wrap_int]; signed overflow is undefined in C++ and the model wraps.
    - The host program's state is a [world]: the live [tapa::seq] objects,
      the shared regions handed out by [allocate], the opaque state [env] that
      task bodies and the device runtime act on, and the trace of the calls
      the header makes into its collaborators (scheduler, frt, libc, glog).
    - A template instantiation is a value: [invoker] exists only for callables
      that pass the header's [static_assert]. *)

From stdpp Require Import base option list gmap strings.
From Stdlib Require Import ZArith Lia.

Local Open Scope Z_scope.

(** ** Machine integers *)

Definition INT_MAX : Z := 2147483647.
Definition INT_MIN : Z := -2147483648.

(** Reduction of an integer into the range of [int]. *)
Definition wrap_int (z : Z) : Z := (z + 2147483648) mod 4294967296 - 2147483648.

(** [x++] on an [int]: the value of the expression and the new value of [x]. *)
Definition post_incr (x : Z) : Z * Z := (x, wrap_int (x + 1)).

(** ** Types of the instantiation model *)

(** Return types, as far as the header distinguishes them. *)
Inductive ctype : Type :=
  | TVoid
  | TInt
  | TNamed (name : string).

#[global] Instance ctype_eq_dec : EqDecision ctype.
Proof. solve_decision. Defined.

(** Calls into [fpga::Instance] (frt.h). *)
Inductive fpga_call (V : Type) : Type :=
  | OpenInstance (bitstream : string)
  | SetArg (idx : Z) (v : V)
  | WriteToDevice
  | Exec
  | ReadFromDevice
  | Finish
  | ComputeTimeNanoSeconds.
Arguments OpenInstance {V} bitstream.
Arguments SetArg {V} idx v.
Arguments WriteToDevice {V}.
Arguments Exec {V}.
Arguments ReadFromDevice {V}.
Arguments Finish {V}.
Arguments ComputeTimeNanoSeconds {V}.

(** What the header takes from outside: the values that flow into task
    functions, the state they and the device act on, [steady_clock], and the
    device runtime. *)
Class Host : Type := {
  value : Type;
  env : Type;
  (** [std::chrono::steady_clock::now()], in nanoseconds. *)
  steady_clock_now : env → Z;
  (** Effect of one [fpga::Instance] call on the state. *)
  frt_effect : fpga_call value → env → env;
  (** Result of [instance.ComputeTimeNanoSeconds()]. *)
  frt_compute_time_ns : env → Z
}.

(** Address of a [tapa::seq] object; of a region returned by [allocate]. *)
Definition loc : Type := positive.
Definition addr : Type := positive.

Section Model.
Context `{Host}.

(** A declared parameter type [Param] of a task function: how a call-site
    argument converts to it ([return arg] / [static_cast<Param>(arg)]), and
    how an [int] does ([static_cast<T>(arg.pos++)]). *)
Record param : Type := {
  convert : value → value;
  of_int : Z → value
}.

(** A callable with [function_traits]: its return type, its parameter tuple,
    and its body as an action on the state. *)
Record func : Type := {
  fname : string;
  return_type : ctype;
  params : list param;
  body : list value → env → env
}.

(** A call-site argument, by its declared kind. A [tapa::seq] is passed as
    an rvalue reference to a sequence object. *)
Inductive arg : Type :=
  | Plain (v : value)
  | Seq (l : loc).

(** Calls the header makes, in program order. *)
Inductive event : Type :=
  | Log (msg : string)
  | Call (f : func) (vs : list value)
  | Schedule (detach : bool) (f : func) (vs : list value)
  | Frt (c : fpga_call value)
  | Allocate (length : Z) (p : addr)
  | Deallocate (p : addr) (length : Z)
  | Fork (pid : Z)
  | Wait (ret status : Z)
  | Exit (code : Z).

Record world : Type := {
  seqs : gmap loc Z;
  regions : gmap addr Z;
  host : env;
  trace : list event
}.

Definition with_seqs (σ : gmap loc Z) (w : world) : world :=
  {| seqs := σ; regions := regions w; host := host w; trace := trace w |}.
Definition with_regions (r : gmap addr Z) (w : world) : world :=
  {| seqs := seqs w; regions := r; host := host w; trace := trace w |}.
Definition with_host (e : env) (w : world) : world :=
  {| seqs := seqs w; regions := regions w; host := e; trace := trace w |}.
Definition emit (ev : event) (w : world) : world :=
  {| seqs := seqs w; regions := regions w; host := host w;
     trace := trace w ++ [ev] |}.

(** Modelled from the spec: [tapa::seq] is declared in tapa/base/task.h, which
    is not part of the sources at hand. A sequence object carries one [int]
    counter [pos]; an object that has not been accessed yet is absent from
    the map and reads as the initial counter value 0. *)
Definition seq_pos (σ : gmap loc Z) (l : loc) : Z := default 0 (σ !! l).

End Model.

(** ** [tapa::internal::accessor] *)

Module accessor.
Section defs.
Context `{Host}.

(** [accessor<Param, Arg>::access(Arg&& arg)]: [return arg]. *)
Definition access (p : param) (v : value) : value := convert p v.

(** [accessor<Param, Arg>::access(instance, idx, arg)]:
    [instance.SetArg(idx++, static_cast<Param>(arg))]. The index counts the
    arguments of one call and stays far from [INT_MAX]. *)
Definition access_fpga (p : param) (idx : Z) (v : value)
  : fpga_call value * Z :=
  (SetArg idx (convert p v), idx + 1).

(** [accessor<T, seq>::access(seq&& arg)]: [return arg.pos++]. *)
Definition seq_access (p : param) (l : loc) (σ : gmap loc Z)
  : value * gmap loc Z :=
  let '(cur, next) := post_incr (seq_pos σ l) in
  (of_int p cur, <[l := next]> σ).

(** [accessor<T, seq>::access(instance, idx, arg)]:
    [instance.SetArg(idx++, static_cast<T>(arg.pos++))]. *)
Definition seq_access_fpga (p : param) (idx : Z) (l : loc) (σ : gmap loc Z)
  : fpga_call value * Z * gmap loc Z :=
  let '(cur, next) := post_incr (seq_pos σ l) in
  (SetArg idx (of_int p cur), idx + 1, <[l := next]> σ).

(** Selection of the accessor by the argument's declared kind: the partial
    specialisation is taken exactly when [Arg] is [seq]. *)
Definition select (p : param) (a : arg) (σ : gmap loc Z)
  : value * gmap loc Z :=
  match a with
  | Plain v => (access p v, σ)
  | Seq l => seq_access p l σ
  end.

Definition select_fpga (p : param) (idx : Z) (a : arg) (σ : gmap loc Z)
  : fpga_call value * Z * gmap loc Z :=
  match a with
  | Plain v => let '(c, idx') := access_fpga p idx v in (c, idx', σ)
  | Seq l => seq_access_fpga p idx l σ
  end.

End defs.
End accessor.

(** ** [tapa::internal::invoker] *)

(** [invoker<F>] can be instantiated only if its [static_assert] holds. *)
Record invoker `{Host} : Type := {
  FuncType : func;
  returns_void : return_type FuncType = TVoid
}.

(** Outcome of a template instantiation. *)
Inductive build (A : Type) : Type :=
  | Rejected (diagnostic : string)
  | Built (a : A).
Arguments Rejected {A} diagnostic.
Arguments Built {A} a.

Module Invoker.
Section defs.
Context `{Host}.

(** Instantiating [invoker<F>]: the [static_assert] on the return type. *)
Definition instantiate (f : func) : build invoker :=
  match decide (return_type f = TVoid) with
  | left Hvoid => Built {| FuncType := f; returns_void := Hvoid |}
  | right _ => Rejected "task function must return void"
  end.

Definition Params (I : invoker) : list param := params (FuncType I).

(** [functor_with_accessors]: each argument goes through the accessor of its
    position, and [std::bind] stores the results by value. C++ leaves the
    order of the accessor calls open; the model evaluates them left to
    right, which only matters when one sequence object fills two positions
    (some compilers run them right to left, see
    [functor_with_accessors_rtl]); what is stated of the bound values of a
    shared sequence object is stated for both directions.
    An argument list longer than the parameter tuple does not compile; the
    model stops at the shorter of the two. *)
Fixpoint functor_with_accessors (ps : list param) (args : list arg)
    (σ : gmap loc Z) : list value * gmap loc Z :=
  match ps, args with
  | p :: ps', a :: args' =>
      let '(v, σ1) := accessor.select p a σ in
      let '(vs, σ2) := functor_with_accessors ps' args' σ1 in
      (v :: vs, σ2)
  | _, _ => ([], σ)
  end.

(** The other extreme of the evaluation order: the accessor calls run right
    to left. *)
Fixpoint functor_with_accessors_rtl (ps : list param) (args : list arg)
    (σ : gmap loc Z) : list value * gmap loc Z :=
  match ps, args with
  | p :: ps', a :: args' =>
      let '(vs, σ1) := functor_with_accessors_rtl ps' args' σ in
      let '(v, σ2) := accessor.select p a σ1 in
      (v :: vs, σ2)
  | _, _ => ([], σ)
  end.

(** [invoker::invoke(int mode, F&& f, Args&&... args)]. *)
Definition invoke (I : invoker) (mode : Z) (args : list arg) (w : world)
  : world :=
  let f := FuncType I in
  let '(vs, σ) := functor_with_accessors (Params I) args (seqs w) in
  let w1 := with_seqs σ w in
  if 0 <? mode then
    (* Sequential scheduling. *)
    with_host (body f vs (host w1)) (emit (Call f vs) w1)
  else
    emit (Schedule (mode <? 0) f vs) w1.

(** One call on the [fpga::Instance]. *)
Definition frt (c : fpga_call value) (w : world) : world :=
  with_host (frt_effect c (host w)) (emit (Frt c) w).

(** The braced initialiser of [set_fpga_args], which runs the accessors left
    to right with the running index [idx]. *)
Fixpoint set_fpga_args_from (ps : list param) (args : list arg) (idx : Z)
    (w : world) : world :=
  match ps, args with
  | p :: ps', a :: args' =>
      let '(c, idx', σ) := accessor.select_fpga p idx a (seqs w) in
      set_fpga_args_from ps' args' idx' (frt c (with_seqs σ w))
  | _, _ => w
  end.

(** [set_fpga_args]: [int idx = 0] and the initialiser. *)
Definition set_fpga_args (ps : list param) (args : list arg) (w : world)
  : world :=
  set_fpga_args_from ps args 0 w.

(** The private [invoke(F&& f, const std::string& bitstream, Args&&...)],
    with its result. *)
Definition invoke_fpga (I : invoker) (bitstream : string) (args : list arg)
    (w : world) : Z * world :=
  let w1 := frt (OpenInstance bitstream) w in
  let w2 := set_fpga_args (Params I) args w1 in
  let w3 := frt WriteToDevice w2 in
  let w4 := frt Exec w3 in
  let w5 := frt ReadFromDevice w4 in
  let w6 := frt Finish w5 in
  (frt_compute_time_ns (host w6), frt ComputeTimeNanoSeconds w6).

(** Modelled from the spec: [allocate] and [deallocate] are declared in the
    header and defined elsewhere. [allocate(length)] hands out a region that
    is not in use, shared with every process forked afterwards and reading
    as zero; [deallocate(addr, length)] releases it. A region is used here
    as one [int64_t] cell. *)
Definition allocate (length : Z) (w : world) : addr * world :=
  let p := fresh (dom (regions w)) in
  (p, with_regions (<[p := 0]> (regions w)) (emit (Allocate length p) w)).

Definition deallocate (p : addr) (length : Z) (w : world) : world :=
  with_regions (delete p (regions w)) (emit (Deallocate p length) w).

(** [*p] and [*p = t] on a region. *)
Definition load (p : addr) (w : world) : Z := default 0 (regions w !! p).
Definition store (p : addr) (t : Z) (w : world) : world :=
  with_regions (<[p := t]> (regions w)) w.

(** The status macros of <sys/wait.h>, [EXIT_SUCCESS] and [SIGABRT]. *)
Definition WTERMSIG (status : Z) : Z := Z.land status 127.
Definition WIFEXITED (status : Z) : bool := WTERMSIG status =? 0.
Definition WEXITSTATUS (status : Z) : Z := Z.shiftr (Z.land status 65280) 8.
Definition W_EXITCODE (ret sig : Z) : Z := Z.lor (Z.shiftl ret 8) sig.
Definition EXIT_SUCCESS : Z := 0.
Definition SIGABRT : Z := 6.

(** What the kernel answers to the process that runs [invoke]: the value of
    [fork()] (0 in the child; the child's pid, or -1, in the parent), the
    value of [wait(&status)], the status word it leaves, and the contents of
    the shared regions at that moment. *)
Record syscalls : Type := {
  fork_ret : Z;
  wait_ret : Z;
  wait_status : Z;
  wait_shared : gmap addr Z
}.

Definition wait (k : syscalls) (w : world) : world :=
  with_regions (wait_shared k ∪ regions w)
    (emit (Wait (wait_ret k) (wait_status k)) w).

(** How a process leaves [invoke]: by [return], through a failed glog
    [CHECK] (which aborts), or through [exit]. *)
Inductive outcome : Type :=
  | Returned (ns : Z)
  | Aborted (check : string)
  | Exited (code : Z).

(** [invoker::invoke(bool run_in_new_process, F&& f, const std::string&
    bitstream, Args&&... args)]. The arguments are plain values: [f] is also
    applied to them directly, which a [seq] does not allow. *)
Definition invoke_top (run_in_new_process : bool) (I : invoker)
    (bitstream : string) (args : list value) (k : syscalls) (w : world)
  : outcome * world :=
  let f := FuncType I in
  if String.eqb bitstream "" then
    let w1 := emit (Log "running software simulation with TAPA library") w in
    let tic := steady_clock_now (host w1) in
    let vs := zip_with convert (Params I) args in
    let w2 := with_host (body f vs (host w1)) (emit (Call f vs) w1) in
    let toc := steady_clock_now (host w2) in
    (Returned (toc - tic), w2)
  else if run_in_new_process then
    let '(kernel_time_ns, w1) := allocate 8 w in
    let pid := fork_ret k in
    let w2 := emit (Fork pid) w1 in
    if negb (pid =? 0) then
      (* Parent. *)
      if pid =? -1 then (Aborted "pid != -1", w2) else
      let w3 := wait k w2 in
      if negb (wait_ret k =? pid) then
        (Aborted "wait(&status) == pid", w3)
      else if negb (WIFEXITED (wait_status k)) then
        (Aborted "WIFEXITED(status)", w3)
      else if negb (WEXITSTATUS (wait_status k) =? EXIT_SUCCESS) then
        (Aborted "WEXITSTATUS(status) == EXIT_SUCCESS", w3)
      else
        (Returned (load kernel_time_ns w3), deallocate kernel_time_ns 8 w3)
    else
      (* Child. *)
      let '(t, w3) := invoke_fpga I bitstream (Plain <$> args) w2 in
      let w4 := store kernel_time_ns t w3 in
      (Exited EXIT_SUCCESS, emit (Exit EXIT_SUCCESS) w4)
  else
    let '(t, w1) := invoke_fpga I bitstream (Plain <$> args) w in
    (Returned t, w1).

(** [fork] and [wait] seen from outside, for a parent whose only child is the
    one forked here: the child starts from the parent's state at the fork,
    runs until it leaves [invoke], and the parent's [wait] then reports the
    child's pid, its exit status (an abort shows as death by [SIGABRT]), and
    the shared regions as the child left them. *)
Definition child_syscalls : syscalls :=
  {| fork_ret := 0; wait_ret := -1; wait_status := 0; wait_shared := ∅ |}.

Definition parent_syscalls (pid : Z) (child : outcome * world) : syscalls :=
  {| fork_ret := pid;
     wait_ret := pid;
     wait_status :=
       match child.1 with
       | Exited code => W_EXITCODE code 0
       | Aborted _ | Returned _ => W_EXITCODE 0 SIGABRT
       end;
     wait_shared := regions child.2 |}.

Definition invoke_top_forked (I : invoker) (bitstream : string)
    (args : list value) (pid : Z) (w : world) : outcome * world :=
  let child := invoke_top true I bitstream args child_syscalls w in
  invoke_top true I bitstream args (parent_syscalls pid child) w.

End defs.
End Invoker.

(** ** [tapa::task] *)

(** Modelled from the spec: the instantiation modes [tapa::join] and
    [tapa::detach] are declared in tapa/base/task.h, which is not part of the
    sources at hand. Join is the mode in which the parent waits for the
    child, detach the one in which it does not; [invoker::invoke] schedules
    an instance that is not detached for mode 0 only, and a detached one for
    negative modes. *)
Definition join : Z := 0.
Definition detach : Z := -1.

Record task : Type := {
  mode_override : option Z
}.

(** Iteration [for (int i = 0; i < n; ++i) step], with the number of
    remaining iterations as the recursion measure. *)
Fixpoint for_lt {S : Type} (fuel : nat) (i n : Z) (step : S → S) (s : S) : S :=
  match fuel with
  | O => s
  | Datatypes.S fuel' =>
      if i <? n then for_lt fuel' (i + 1) n step (step s) else s
  end.

Module Task.
Section defs.
Context `{Host}.

(** [invoke<mode>(func, name, args...)]. The name is not passed on. *)
Definition invoke_mode_name (this : task) (mode : Z) (I : invoker)
    (name : string) (args : list arg) (w : world) : task * world :=
  (this, Invoker.invoke I (default mode (mode_override this)) args w).

(** [invoke<mode>(func, args...)]. *)
Definition invoke_mode (this : task) (mode : Z) (I : invoker)
    (args : list arg) (w : world) : task * world :=
  invoke_mode_name this mode I "" args w.

(** [invoke(func, args...)]. *)
Definition invoke (this : task) (I : invoker) (args : list arg) (w : world)
  : task * world :=
  invoke_mode_name this join I "" args w.

(** [invoke(func, name, args...)]. *)
Definition invoke_name (this : task) (I : invoker) (name : string)
    (args : list arg) (w : world) : task * world :=
  invoke_mode_name this join I name args w.

(** [invoke<mode, n>(func, name, args...)]. *)
Definition invoke_mode_n_name (this : task) (mode n : Z) (I : invoker)
    (name : string) (args : list arg) (w : world) : task * world :=
  for_lt (Z.to_nat n) 0 n
    (λ '(this', w'), invoke_mode this' mode I args w') (this, w).

(** [invoke<mode, n>(func, args...)]. *)
Definition invoke_mode_n (this : task) (mode n : Z) (I : invoker)
    (args : list arg) (w : world) : task * world :=
  invoke_mode_n_name this mode n I "" args w.

(** A call [this.invoke<mode>(func, name, args...)] as the compiler sees it:
    its body exists only once [invoker<Func>] has been instantiated. *)
Definition invoke_call (mode : Z) (f : func) (name : string)
    (args : list arg) : build (task → world → task * world) :=
  match Invoker.instantiate f with
  | Rejected d => Rejected d
  | Built inv => Built (λ this w, invoke_mode_name this mode inv name args w)
  end.

End defs.
End Task.

(** ** Vocabulary of the statements *)

Section Vocabulary.
Context `{Host}.

(** The machine increment that [pos++] applies to the counter. *)
Definition int_succ (x : Z) : Z := (post_incr x).2.

(** The sequence objects bound to the argument positions of a call. *)
Fixpoint seq_slots (ps : list param) (args : list arg) : list loc :=
  match ps, args with
  | _ :: ps', Plain _ :: args' => seq_slots ps' args'
  | _ :: ps', Seq l :: args' => l :: seq_slots ps' args'
  | _, _ => []
  end.

(** The child that [invoker::invoke] creates for a mode and a bound functor. *)
Definition instantiated (mode : Z) (f : func) (vs : list value) : event :=
  if 0 <? mode then Call f vs else Schedule (mode <? 0) f vs.

(** The arguments bound when the sequence object at [l] yields [pos l]:
    plain arguments are converted to their parameter types. *)
Definition bound_args (pos : loc → Z) (ps : list param) (args : list arg)
  : list value :=
  zip_with (λ p a, match a with
                   | Plain v => convert p v
                   | Seq l => of_int p (pos l)
                   end) ps args.

(** The arguments the specification gives replica [i]: every sequence
    argument equal to [i]. *)
Definition replica_args (ps : list param) (args : list arg) (i : Z)
  : list value :=
  bound_args (λ _, i) ps args.

(** The arguments bound when every sequence object is read in the store
    [σ]. *)
Definition read_args (σ : gmap loc Z) (ps : list param) (args : list arg)
  : list value :=
  bound_args (seq_pos σ) ps args.

(** The replicating invoke as the specification words it: [n] children, in
    creation order, all in the effective mode, replica [i] with
    [replica_args .. i]; and the parent returned. *)
Definition replicates_as_specified (this : task) (mode n : Z) (I : invoker)
    (args : list arg) (w : world) : Prop :=
  let r := Task.invoke_mode_n this mode n I args w in
  r.1 = this ∧
  trace r.2 = trace w ++
    ((λ i, instantiated (default mode (mode_override this)) (FuncType I)
             (replica_args (Invoker.Params I) args i)) <$> seqZ 0 n).

(** The plain invoke as the specification words it: exactly one child, in
    join mode, and the parent returned. *)
Definition plain_invoke_as_specified (this : task) (I : invoker)
    (args : list arg) (w : world) : Prop :=
  let r := Task.invoke this I args w in
  r.1 = this ∧
  ∃ vs, trace r.2 = trace w ++ [instantiated join (FuncType I) vs].

(** A task body never moves the steady clock backwards. *)
Definition steady (f : func) : Prop :=
  ∀ vs e, steady_clock_now e ≤ steady_clock_now (body f vs e).

(** The [SetArg] calls for a list of bound values, by position from [idx]. *)
Definition set_arg_calls (idx : Z) (vs : list value) : list (fpga_call value) :=
  imap (λ i v, SetArg (idx + Z.of_nat i) v) vs.

(** The device-runtime calls of one hardware run, up to [Finish]. *)
Definition driver_calls (bitstream : string) (vs : list value)
  : list (fpga_call value) :=
  OpenInstance bitstream :: set_arg_calls 0 vs ++
  [WriteToDevice; Exec; ReadFromDevice; Finish].

(** The state after a series of device-runtime calls. *)
Definition run_calls (cs : list (fpga_call value)) (e : env) : env :=
  foldl (λ e' c, frt_effect c e') e cs.

(** What the parent's checks accept: the fork worked, [wait] reported the
    forked child, and the child exited normally with [EXIT_SUCCESS]. *)
Definition child_succeeded (k : Invoker.syscalls) : Prop :=
  Invoker.fork_ret k ≠ -1 ∧
  Invoker.wait_ret k = Invoker.fork_ret k ∧
  Invoker.WIFEXITED (Invoker.wait_status k) = true ∧
  Invoker.WEXITSTATUS (Invoker.wait_status k) = Invoker.EXIT_SUCCESS.

(** The kernel time a hardware run on plain arguments measures. *)
Definition kernel_time (I : invoker) (bitstream : string)
    (plain : list value) (w : world) : Z :=
  frt_compute_time_ns
    (run_calls
       (driver_calls bitstream
          (Invoker.functor_with_accessors (Invoker.Params I)
             (Plain <$> plain) (seqs w)).1)
       (host w)).

End Vocabulary.

(** ** A concrete host, used to run the model *)

Module demo.

Definition demo_host : Host :=
  {| value := Z;
     env := Z;
     steady_clock_now := λ e, e;
     frt_effect := λ c e, match c with Exec => e + 1000 | _ => e + 1 end;
     frt_compute_time_ns := λ e, 1000 |}.

#[local] Existing Instance demo_host.

Definition int_param : @param demo_host :=
  {| convert := λ v, v; of_int := λ z, z |}.

(** [void f2(int, int)], taking 7 ns. *)
Definition f2 : @func demo_host :=
  {| fname := "f2"; return_type := TVoid; params := [int_param; int_param];
     body := λ _ e, e + 7 |}.

(** [int g1(int)]. *)
Definition g1 : @func demo_host :=
  {| fname := "g1"; return_type := TInt; params := [int_param];
     body := λ _ e, e |}.

Definition I2 : @invoker demo_host :=
  {| FuncType := f2; returns_void := eq_refl |}.

Definition w0 : @world demo_host :=
  {| seqs := ∅; regions := ∅; host := 0; trace := [] |}.

(** A state in which the sequence object at address 1 has counted to 5. *)
Definition w5 : @world demo_host :=
  {| seqs := {[ 1%positive := 5 ]}; regions := ∅; host := 0; trace := [] |}.

Definition plain_task : task := {| mode_override := None |}.
Definition sequential_task : task := {| mode_override := Some 1 |}.

(** A sequence object. *)
Definition shared : loc := 1%positive.

(** The arguments [42, seq()], and one sequence object passed twice. *)
Definition args_seq : list (@arg demo_host) := [Plain 42; Seq shared].
Definition args_twice : list (@arg demo_host) := [Seq shared; Seq shared].

(** The kernel's answers to a parent whose child stored 1000 in the shared
    region and exited with [EXIT_SUCCESS]; and to one whose child exited
    with status 1. *)
Definition child_exited_ok : Invoker.syscalls :=
  {| Invoker.fork_ret := 77; Invoker.wait_ret := 77;
     Invoker.wait_status := 0;
     Invoker.wait_shared := {[ 1%positive := 1000 ]} |}.

Definition child_exited_1 : Invoker.syscalls :=
  {| Invoker.fork_ret := 77; Invoker.wait_ret := 77;
     Invoker.wait_status := 256;
     Invoker.wait_shared := ∅ |}.

End demo.

(** ** Vocabulary of the further properties *)

Section Sharing.
Context `{Host}.

(** The mode a task object applies when [invoke<mode>] is called on it. *)
Definition effective_mode (this : task) (mode : Z) : Z :=
  default mode (mode_override this).

(** How many argument positions of a call are bound to the sequence object
    [l], and how many of them come before position [j]. *)
Definition uses (ps : list param) (args : list arg) (l : loc) : nat :=
  count_occ Pos.eq_dec (seq_slots ps args) l.

Definition uses_before (ps : list param) (args : list arg) (j : nat)
    (l : loc) : nat :=
  uses (take j ps) (take j args) l.

Definition uses_after (ps : list param) (args : list arg) (j : nat)
    (l : loc) : nat :=
  uses (drop (S j) ps) (drop (S j) args) l.

(** The state after [k] replicas of [invoke<mode>(func, args...)]. *)
Definition after_replicas (this : task) (mode : Z) (I : invoker)
    (args : list arg) (w : world) (k : nat) : task * world :=
  Nat.iter k (λ '(this', w'), Task.invoke_mode this' mode I args w')
    (this, w).

(** The values bound for replica [i]. *)
Definition replica_values (this : task) (mode : Z) (I : invoker)
    (args : list arg) (w : world) (i : nat) : list value :=
  (Invoker.functor_with_accessors (Invoker.Params I) args
     (seqs (after_replicas this mode I args w i).2)).1.

End Sharing.

(** * Properties *)

(** ** Machine integers and the loop *)

Lemma wrap_int_id (z : Z) : INT_MIN ≤ z ≤ INT_MAX → wrap_int z = z.
Proof.
  unfold wrap_int, INT_MIN, INT_MAX. intros Hz.
  rewrite Z.mod_small; lia.
Qed.

Lemma int_succ_eq (x : Z) : INT_MIN ≤ x < INT_MAX → int_succ x = x + 1.
Proof.
  intros Hx. unfold int_succ, post_incr. simpl.
  apply wrap_int_id. unfold INT_MIN, INT_MAX in *. lia.
Qed.

Lemma iter_int_succ (k : nat) (x : Z) :
  INT_MIN ≤ x → x + Z.of_nat k ≤ INT_MAX →
  Nat.iter k int_succ x = x + Z.of_nat k.
Proof.
  induction k as [|k IH]; intros Hlo Hhi; simpl.
  - lia.
  - rewrite IH by lia. rewrite int_succ_eq by lia. lia.
Qed.

Lemma iter_shift {A : Type} (g : A → A) (k : nat) (a : A) :
  Nat.iter k g (g a) = g (Nat.iter k g a).
Proof. induction k as [|k IH]; simpl; [done | by rewrite IH]. Qed.

(** With the remaining distance as fuel, the loop runs its body once per
    index in [i, n). *)
Lemma for_lt_iter {S : Type} (step : S → S) (n : Z) (fuel : nat) :
  ∀ (i : Z) (s : S),
    fuel = Z.to_nat (n - i) →
    for_lt fuel i n step s = Nat.iter fuel step s.
Proof.
  induction fuel as [|fuel IH]; intros i s Hfuel; simpl; [done |].
  assert (i < n) as Hlt by lia.
  apply Z.ltb_lt in Hlt. rewrite Hlt.
  rewrite IH by lia. apply iter_shift.
Qed.

(** The loop leaves through its test: fuel beyond the remaining distance is
    never used. *)
Lemma for_lt_fuel {S : Type} (step : S → S) (n : Z) (fuel : nat) :
  ∀ (i : Z) (s : S) (extra : nat),
    fuel = Z.to_nat (n - i) →
    for_lt (fuel + extra) i n step s = for_lt fuel i n step s.
Proof.
  induction fuel as [|fuel IH]; intros i s extra Hfuel; simpl.
  - destruct extra as [|extra]; simpl; [done |].
    assert ((i <? n) = false) as -> by (apply Z.ltb_ge; lia). done.
  - assert ((i <? n) = true) as -> by (apply Z.ltb_lt; lia).
    apply IH. lia.
Qed.

Section Instantiation.
Context `{Host}.

Lemma invoke_mode_n_iter (this : task) (mode n : Z) (I : invoker)
    (args : list arg) (w : world) :
  Task.invoke_mode_n this mode n I args w =
  Nat.iter (Z.to_nat n)
    (λ '(this', w'), Task.invoke_mode this' mode I args w') (this, w).
Proof.
  unfold Task.invoke_mode_n, Task.invoke_mode_n_name.
  apply for_lt_iter. f_equal. lia.
Qed.

(** ** Dispatch by mode *)

Lemma invoke_unfold (I : invoker) (mode : Z) (args : list arg) (w : world) :
  let b := Invoker.functor_with_accessors (Invoker.Params I) args (seqs w) in
  Invoker.invoke I mode args w =
  {| seqs := b.2;
     regions := regions w;
     host := if 0 <? mode then body (FuncType I) b.1 (host w) else host w;
     trace := trace w ++ [instantiated mode (FuncType I) b.1] |}.
Proof.
  unfold Invoker.invoke, instantiated. simpl.
  destruct (Invoker.functor_with_accessors _ _ _) as [vs σ]; simpl.
  destruct (0 <? mode); reflexivity.
Qed.

(** C9. [invoker::invoke(mode, f, args...)] binds the arguments once and
    then, if the mode is strictly positive, runs the functor to completion in
    the caller; otherwise it hands the functor to the scheduler, detached
    exactly when the mode is strictly negative, so that mode zero is
    scheduled as a joined instance. *)
Theorem invoke_dispatches_on_mode (I : invoker) (mode : Z) (args : list arg)
    (w : world) :
  let f := FuncType I in
  let vs :=
    (Invoker.functor_with_accessors (Invoker.Params I) args (seqs w)).1 in
  let w' := Invoker.invoke I mode args w in
  (0 < mode →
     trace w' = trace w ++ [Call f vs] ∧ host w' = body f vs (host w)) ∧
  (mode ≤ 0 →
     ∃ detached : bool,
       trace w' = trace w ++ [Schedule detached f vs] ∧
       host w' = host w ∧
       (detached = true ↔ mode < 0)) ∧
  (mode = 0 → trace w' = trace w ++ [Schedule false f vs]).
Proof.
  intros f vs w'. subst w'. rewrite invoke_unfold. simpl.
  unfold instantiated. fold vs. fold f.
  repeat split.
  - assert ((0 <? mode) = true) as -> by (apply Z.ltb_lt; lia). done.
  - assert ((0 <? mode) = true) as -> by (apply Z.ltb_lt; lia). done.
  - intros Hle. exists (mode <? 0).
    assert ((0 <? mode) = false) as -> by (apply Z.ltb_ge; lia).
    repeat split; [apply Z.ltb_lt | apply Z.ltb_lt].
  - intros ->. reflexivity.
Qed.

(** ** The parent object and the plain invoke *)

Lemma invoke_mode_name_fst (this : task) (mode : Z) (I : invoker)
    (name : string) (args : list arg) (w : world) :
  (Task.invoke_mode_name this mode I name args w).1 = this.
Proof. reflexivity. Qed.

Lemma iter_invoke_mode_fst (this : task) (mode : Z) (I : invoker)
    (args : list arg) (w : world) (k : nat) :
  (Nat.iter k (λ '(this', w'), Task.invoke_mode this' mode I args w')
     (this, w)).1 = this.
Proof.
  induction k as [|k IH]; simpl; [done |].
  destruct (Nat.iter k _ _) as [t wk]. simpl in IH. by subst.
Qed.

Lemma invoke_mode_n_fst (this : task) (mode n : Z) (I : invoker)
    (args : list arg) (w : world) :
  (Task.invoke_mode_n this mode n I args w).1 = this.
Proof. rewrite invoke_mode_n_iter. apply iter_invoke_mode_fst. Qed.

(** C10. A replication count that is zero or negative instantiates no child:
    the loop body never runs, the parent is returned and nothing of the
    program state changes. *)
Theorem invoke_mode_n_nonpositive (this : task) (mode n : Z) (I : invoker)
    (name : string) (args : list arg) (w : world) :
  n ≤ 0 →
  Task.invoke_mode_n this mode n I args w = (this, w) ∧
  Task.invoke_mode_n_name this mode n I name args w = (this, w).
Proof.
  intros Hn. unfold Task.invoke_mode_n, Task.invoke_mode_n_name.
  replace (Z.to_nat n) with 0%nat by lia. done.
Qed.

(** C7, as amended. The plain invoke instantiates exactly one child, bound
    to the given arguments, in the mode [mode_override.value_or(join)]: in
    join mode when the task object carries no mode override. Every invoke
    variant returns the parent it was called on. *)
Theorem invoke_plain_one_child (this : task) (I : invoker) (name : string)
    (mode n : Z) (args : list arg) (w : world) :
  let f := FuncType I in
  let vs :=
    (Invoker.functor_with_accessors (Invoker.Params I) args (seqs w)).1 in
  let r := Task.invoke this I args w in
  trace r.2 =
    trace w ++ [instantiated (default join (mode_override this)) f vs] ∧
  (mode_override this = None →
     trace r.2 = trace w ++ [Schedule false f vs]) ∧
  r = Task.invoke_mode_name this join I "" args w ∧
  r.1 = this ∧
  (Task.invoke_name this I name args w).1 = this ∧
  (Task.invoke_mode this mode I args w).1 = this ∧
  (Task.invoke_mode_name this mode I name args w).1 = this ∧
  (Task.invoke_mode_n this mode n I args w).1 = this ∧
  (Task.invoke_mode_n_name this mode n I name args w).1 = this.
Proof.
  intros f vs r. subst r.
  unfold Task.invoke, Task.invoke_name, Task.invoke_mode.
  unfold Task.invoke_mode_name at 1 2. simpl.
  rewrite invoke_unfold. simpl. fold f vs.
  repeat split.
  - intros ->. reflexivity.
  - apply invoke_mode_n_fst.
  - apply (invoke_mode_n_fst this mode n I args w).
Qed.

(** ** Sequence objects *)

Lemma seq_pos_insert (σ : gmap loc Z) (l l' : loc) (x : Z) :
  seq_pos (<[l := x]> σ) l' = if decide (l = l') then x else seq_pos σ l'.
Proof.
  unfold seq_pos. destruct (decide (l = l')) as [->|Hne].
  - by rewrite lookup_insert_eq.
  - by rewrite lookup_insert_ne.
Qed.

Lemma seq_access_spec (p : param) (l : loc) (σ : gmap loc Z) :
  accessor.seq_access p l σ =
  (of_int p (seq_pos σ l), <[l := int_succ (seq_pos σ l)]> σ).
Proof. reflexivity. Qed.

Lemma seq_access_fpga_spec (p : param) (idx : Z) (l : loc) (σ : gmap loc Z) :
  accessor.seq_access_fpga p idx l σ =
  (SetArg idx (accessor.seq_access p l σ).1, idx + 1,
   (accessor.seq_access p l σ).2).
Proof. reflexivity. Qed.

Lemma select_fpga_spec (p : param) (idx : Z) (a : arg) (σ : gmap loc Z) :
  accessor.select_fpga p idx a σ =
  (SetArg idx (accessor.select p a σ).1, idx + 1, (accessor.select p a σ).2).
Proof. destruct a; reflexivity. Qed.

(** Each position bound to [l] advances its counter once. *)
Lemma functor_with_accessors_pos (ps : list param) :
  ∀ (args : list arg) (σ : gmap loc Z) (l : loc),
    seq_pos (Invoker.functor_with_accessors ps args σ).2 l =
    Nat.iter (count_occ Pos.eq_dec (seq_slots ps args) l) int_succ
      (seq_pos σ l).
Proof.
  induction ps as [|p ps IH]; intros [|a args] σ l; simpl; try done.
  destruct a as [v|l0]; simpl.
  - specialize (IH args σ l).
    destruct (Invoker.functor_with_accessors ps args σ) as [vs σ2].
    exact IH.
  - specialize (IH args (<[l0 := int_succ (seq_pos σ l0)]> σ) l).
    unfold int_succ at 1 in IH. simpl in IH.
    destruct (Invoker.functor_with_accessors ps args _) as [vs σ2].
    simpl in *. rewrite IH, seq_pos_insert.
    destruct (Pos.eq_dec l0 l) as [->|Hne].
    + rewrite decide_True by done. simpl. by rewrite iter_shift.
    + by rewrite decide_False.
Qed.

Lemma bound_args_ext (pos pos' : loc → Z) (ps : list param) :
  ∀ args : list arg,
    (∀ l, l ∈ seq_slots ps args → pos l = pos' l) →
    bound_args pos ps args = bound_args pos' ps args.
Proof.
  unfold bound_args.
  induction ps as [|p ps IH]; intros [|a args] Hagree; simpl; try done.
  destruct a as [v|l0]; simpl in *.
  - f_equal. by apply IH.
  - rewrite (Hagree l0) by set_solver. f_equal.
    apply IH. intros l Hl. apply Hagree. set_solver.
Qed.

(** When no sequence object fills two positions, every position reads the
    counter as it was before the call. *)
Lemma functor_with_accessors_values (ps : list param) :
  ∀ (args : list arg) (σ : gmap loc Z),
    NoDup (seq_slots ps args) →
    (Invoker.functor_with_accessors ps args σ).1 = read_args σ ps args.
Proof.
  induction ps as [|p ps IH]; intros [|a args] σ Hnd; simpl; try done.
  destruct a as [v|l0]; simpl in *.
  - specialize (IH args σ Hnd).
    destruct (Invoker.functor_with_accessors ps args σ) as [vs σ2].
    simpl in *. unfold read_args, bound_args in *. simpl. by rewrite IH.
  - apply NoDup_cons in Hnd as [Hnotin Hnd].
    specialize (IH args (<[l0 := (post_incr (seq_pos σ l0)).2]> σ) Hnd).
    simpl in IH.
    destruct (Invoker.functor_with_accessors ps args _) as [vs σ2].
    simpl in *. rewrite IH. unfold read_args, bound_args at 2. simpl. f_equal.
    apply bound_args_ext. intros l Hl. rewrite seq_pos_insert.
    rewrite decide_False; [done | set_solver].
Qed.

(** The store after a call in which no sequence object fills two positions:
    every bound object has advanced once, in whichever order the accessors
    ran. *)
Lemma functor_with_accessors_store (ps : list param) :
  ∀ (args : list arg) (σ : gmap loc Z) (l : loc),
    NoDup (seq_slots ps args) →
    (Invoker.functor_with_accessors ps args σ).2 !! l =
    if decide (l ∈ seq_slots ps args) then Some (int_succ (seq_pos σ l))
    else σ !! l.
Proof.
  induction ps as [|p ps IH]; intros [|a args] σ l Hnd; simpl;
    try done; try (rewrite decide_False by set_solver; done).
  destruct a as [v|l0]; simpl in *.
  - specialize (IH args σ l Hnd).
    by destruct (Invoker.functor_with_accessors ps args σ) as [vs σ2].
  - apply NoDup_cons in Hnd as [Hnotin Hnd].
    specialize (IH args (<[l0 := (post_incr (seq_pos σ l0)).2]> σ) l Hnd).
    destruct (Invoker.functor_with_accessors ps args _) as [vs σ2].
    simpl in *. rewrite IH.
    destruct (decide (l = l0)) as [->|Hne].
    + rewrite decide_False by done.
      rewrite decide_True by apply list_elem_of_here.
      by rewrite lookup_insert_eq.
    + rewrite seq_pos_insert.
      rewrite (decide_False (P := l0 = l)) by done.
      rewrite lookup_insert_ne by done.
      destruct (decide (l ∈ seq_slots ps args)).
      * by rewrite decide_True by (by apply list_elem_of_further).
      * by rewrite decide_False by (by apply not_elem_of_cons).
Qed.

Lemma functor_with_accessors_rtl_spec (ps : list param) :
  ∀ (args : list arg) (σ : gmap loc Z),
    NoDup (seq_slots ps args) →
    (Invoker.functor_with_accessors_rtl ps args σ).1 = read_args σ ps args ∧
    ∀ l, (Invoker.functor_with_accessors_rtl ps args σ).2 !! l =
         if decide (l ∈ seq_slots ps args)
         then Some (int_succ (seq_pos σ l)) else σ !! l.
Proof.
  induction ps as [|p ps IH]; intros [|a args] σ Hnd; simpl;
    try (split; [done | intros l; try done;
                        by rewrite decide_False by set_solver]).
  destruct a as [v|l0]; simpl in *.
  - destruct (IH args σ Hnd) as [Hvals Hstore].
    destruct (Invoker.functor_with_accessors_rtl ps args σ) as [vs σ1].
    simpl in *. split; [| done].
    unfold read_args, bound_args in *. simpl. by rewrite Hvals.
  - apply NoDup_cons in Hnd as [Hnotin Hnd].
    destruct (IH args σ Hnd) as [Hvals Hstore].
    destruct (Invoker.functor_with_accessors_rtl ps args σ) as [vs σ1].
    simpl in *.
    assert (seq_pos σ1 l0 = seq_pos σ l0) as Hl0.
    { unfold seq_pos. rewrite Hstore. by rewrite decide_False. }
    rewrite Hl0. split.
    + unfold read_args, bound_args in *. simpl. by rewrite Hvals.
    + intros l. destruct (decide (l = l0)) as [->|Hne].
      * rewrite lookup_insert_eq.
        by rewrite decide_True by apply list_elem_of_here.
      * rewrite lookup_insert_ne by done. rewrite Hstore.
        destruct (decide (l ∈ seq_slots ps args)).
        -- by rewrite decide_True by (by apply list_elem_of_further).
        -- by rewrite decide_False by (by apply not_elem_of_cons).
Qed.

(** When no sequence object fills two positions, the order in which C++
    evaluates the accessor calls does not show. *)
Lemma functor_with_accessors_order (ps : list param) (args : list arg)
    (σ : gmap loc Z) :
  NoDup (seq_slots ps args) →
  Invoker.functor_with_accessors_rtl ps args σ =
  Invoker.functor_with_accessors ps args σ.
Proof.
  intros Hnd.
  destruct (functor_with_accessors_rtl_spec ps args σ Hnd) as [Hvals Hstore].
  pose proof (functor_with_accessors_values ps args σ Hnd) as Hvals'.
  pose proof (λ l, functor_with_accessors_store ps args σ l Hnd) as Hstore'.
  destruct (Invoker.functor_with_accessors_rtl ps args σ) as [vs1 σ1].
  destruct (Invoker.functor_with_accessors ps args σ) as [vs2 σ2].
  simpl in *. f_equal; [congruence |].
  apply map_eq. intros l. by rewrite Hstore, Hstore'.
Qed.

(** Advancing two counters commutes, so the counters a call leaves do not
    depend on the order of its accessor calls, whatever the arguments
    share. *)
Lemma advance_comm (σ : gmap loc Z) (l1 l2 : loc) :
  <[l1 := int_succ (seq_pos (<[l2 := int_succ (seq_pos σ l2)]> σ) l1)]>
    (<[l2 := int_succ (seq_pos σ l2)]> σ) =
  <[l2 := int_succ (seq_pos (<[l1 := int_succ (seq_pos σ l1)]> σ) l2)]>
    (<[l1 := int_succ (seq_pos σ l1)]> σ).
Proof.
  destruct (decide (l1 = l2)) as [->|Hne]; [done |].
  rewrite !seq_pos_insert.
  rewrite (decide_False (P := l2 = l1)) by done.
  rewrite (decide_False (P := l1 = l2)) by done.
  by apply insert_insert_ne.
Qed.

Lemma functor_with_accessors_advance (ps : list param) :
  ∀ (args : list arg) (σ : gmap loc Z) (l : loc),
    (Invoker.functor_with_accessors ps args
       (<[l := int_succ (seq_pos σ l)]> σ)).2 =
    <[l := int_succ
             (seq_pos (Invoker.functor_with_accessors ps args σ).2 l)]>
      (Invoker.functor_with_accessors ps args σ).2.
Proof.
  induction ps as [|p ps IH]; intros [|a args] σ l; simpl; try done.
  destruct a as [v|l0]; simpl.
  - specialize (IH args σ l).
    destruct (Invoker.functor_with_accessors ps args σ) as [vs σ2].
    by destruct (Invoker.functor_with_accessors ps args _) as [vs' σ2'].
  - change (wrap_int (seq_pos σ l0 + 1)) with (int_succ (seq_pos σ l0)).
    change (wrap_int (seq_pos (<[l:=int_succ (seq_pos σ l)]> σ) l0 + 1))
      with (int_succ (seq_pos (<[l:=int_succ (seq_pos σ l)]> σ) l0)).
    rewrite advance_comm.
    specialize (IH args (<[l0 := int_succ (seq_pos σ l0)]> σ) l).
    destruct (Invoker.functor_with_accessors ps args
                (<[l0 := int_succ (seq_pos σ l0)]> σ)) as [vs σ2].
    by destruct (Invoker.functor_with_accessors ps args _) as [vs' σ2'].
Qed.

Lemma functor_with_accessors_rtl_counters (ps : list param) :
  ∀ (args : list arg) (σ : gmap loc Z),
    (Invoker.functor_with_accessors_rtl ps args σ).2 =
    (Invoker.functor_with_accessors ps args σ).2.
Proof.
  induction ps as [|p ps IH]; intros [|a args] σ; simpl; try done.
  specialize (IH args σ).
  destruct (Invoker.functor_with_accessors_rtl ps args σ) as [vs σ1].
  simpl in IH. subst σ1. destruct a as [v|l0]; simpl.
  - by destruct (Invoker.functor_with_accessors ps args σ) as [vs' σ2].
  - pose proof (functor_with_accessors_advance ps args σ l0) as Hadv.
    unfold int_succ at 1 in Hadv. simpl in Hadv.
    destruct (Invoker.functor_with_accessors ps args
                (<[l0 := wrap_int (seq_pos σ l0 + 1)]> σ)) as [vs' σ2].
    simpl in *. by rewrite Hadv.
Qed.

Lemma count_occ_slot (ls : list loc) (l : loc) :
  NoDup ls → l ∈ ls → count_occ Pos.eq_dec ls l = 1%nat.
Proof.
  intros Hnd Hl. apply (NoDup_count_occ' Pos.eq_dec ls).
  - by apply NoDup_ListNoDup.
  - by apply list_elem_of_In.
Qed.

(** ** Replication *)

(** The state after [k] replicas: the parent, the counters of the bound
    sequence objects, and the children created so far. *)
Lemma replicas_invariant (this : task) (mode : Z) (I : invoker)
    (args : list arg) (w : world) (k : nat) :
  NoDup (seq_slots (Invoker.Params I) args) →
  let r := Nat.iter k
             (λ '(this', w'), Task.invoke_mode this' mode I args w')
             (this, w) in
  r.1 = this ∧
  (∀ l, l ∈ seq_slots (Invoker.Params I) args →
        seq_pos (seqs r.2) l = Nat.iter k int_succ (seq_pos (seqs w) l)) ∧
  trace r.2 = trace w ++
    ((λ i : nat,
        instantiated (default mode (mode_override this)) (FuncType I)
          (bound_args (λ l, Nat.iter i int_succ (seq_pos (seqs w) l))
             (Invoker.Params I) args)) <$> seq 0 k).
Proof.
  intros Hnd. induction k as [|k IH].
  - simpl. by rewrite app_nil_r.
  - rewrite seq_S, fmap_app, app_assoc. simpl.
    destruct (Nat.iter k _ _) as [t wk]. simpl in IH.
    destruct IH as (-> & Hpos & Htrace).
    unfold Task.invoke_mode, Task.invoke_mode_name. simpl.
    rewrite invoke_unfold. simpl. split; [done |]. split.
    + intros l Hl. rewrite functor_with_accessors_pos.
      rewrite count_occ_slot by done. simpl. by rewrite Hpos.
    + rewrite Htrace. do 3 f_equal.
      rewrite functor_with_accessors_values by done.
      by apply bound_args_ext.
Qed.

(** C1, as amended. For a call in which no sequence object is bound to two
    argument positions and every bound sequence counter starts at 0, the
    replicating invoke with count [n] creates exactly [n] children (none
    when [n] is not positive), all in the same mode
    [mode_override.value_or(mode)], whose arguments agree except that each
    sequence argument of replica [i] is [i]; and it returns the parent. *)
Theorem invoke_mode_n_replicates (this : task) (mode n : Z) (I : invoker)
    (args : list arg) (w : world) :
  n ≤ INT_MAX →
  NoDup (seq_slots (Invoker.Params I) args) →
  (∀ l, l ∈ seq_slots (Invoker.Params I) args → seq_pos (seqs w) l = 0) →
  replicates_as_specified this mode n I args w ∧
  length (trace (Task.invoke_mode_n this mode n I args w).2) =
    (length (trace w) + Z.to_nat n)%nat.
Proof.
  intros Hn Hnd Hzero. unfold replicates_as_specified.
  rewrite invoke_mode_n_iter.
  destruct (replicas_invariant this mode I args w (Z.to_nat n) Hnd)
    as (Hthis & _ & Htrace).
  split; [split; [exact Hthis |] |].
  - rewrite Htrace. f_equal. unfold seqZ. rewrite <- list_fmap_compose.
    apply list_fmap_ext. intros j i Hi. simpl. f_equal.
    apply lookup_seq in Hi as [-> Hlt]. simpl.
    unfold replica_args. apply bound_args_ext. intros l Hl.
    rewrite (Hzero l Hl). rewrite iter_int_succ.
    + lia.
    + unfold INT_MIN. lia.
    + unfold INT_MAX in *. lia.
  - rewrite Htrace, length_app, length_fmap, length_seq. done.
Qed.

Lemma iter_invoke_mode_pos (this : task) (mode : Z) (I : invoker)
    (args : list arg) (w : world) (l : loc) (k : nat) :
  seq_pos (seqs (Nat.iter k
                   (λ '(this', w'), Task.invoke_mode this' mode I args w')
                   (this, w)).2) l =
  Nat.iter (k * count_occ Pos.eq_dec (seq_slots (Invoker.Params I) args) l)
    int_succ (seq_pos (seqs w) l).
Proof.
  induction k as [|k IH]; simpl; [done |].
  destruct (Nat.iter k _ _) as [t wk]. simpl in IH.
  unfold Task.invoke_mode, Task.invoke_mode_name. simpl.
  rewrite invoke_unfold. simpl.
  rewrite functor_with_accessors_pos, IH. by rewrite Nat.iter_add.
Qed.

(** C5. A callable whose return type is not [void] never reaches execution
    or scheduling: instantiating [invoker] for it is rejected with the
    diagnostic of the [static_assert], so no [task::invoke] on it has a
    body, and every [invoker] there is belongs to a function that returns
    [void]. *)
Theorem invoker_requires_void (f : func) :
  return_type f ≠ TVoid →
  Invoker.instantiate f = Rejected "task function must return void" ∧
  (∀ mode name args,
     Task.invoke_call mode f name args =
       Rejected "task function must return void") ∧
  (∀ I : invoker, FuncType I ≠ f) ∧
  (∀ I : invoker, return_type (FuncType I) = TVoid).
Proof.
  intros Hret.
  assert (Invoker.instantiate f = Rejected "task function must return void")
    as Hrej.
  { unfold Invoker.instantiate. destruct (decide _) as [Hvoid | _]; [|done].
    by destruct Hret. }
  split; [exact Hrej |]. split; [| split].
  - intros mode name args. unfold Task.invoke_call. by rewrite Hrej.
  - intros I Heq. apply Hret. rewrite <- Heq. apply returns_void.
  - intros I. apply returns_void.
Qed.

End Instantiation.

(** ** The hardware path *)

Section Hardware.
Context `{Host}.

Lemma set_arg_calls_cons (idx : Z) (v : value) (vs : list value) :
  set_arg_calls idx (v :: vs) = SetArg idx v :: set_arg_calls (idx + 1) vs.
Proof.
  unfold set_arg_calls. rewrite imap_cons. f_equal.
  - f_equal. lia.
  - apply imap_ext. intros i x _. simpl. f_equal. lia.
Qed.

(** [set_fpga_args] binds the values that [functor_with_accessors] binds,
    advances the sequence objects in the same way, and passes the values to
    [SetArg] under consecutive indices. *)
Lemma set_fpga_args_from_spec (ps : list param) :
  ∀ (args : list arg) (idx : Z) (w : world),
    let b := Invoker.functor_with_accessors ps args (seqs w) in
    Invoker.set_fpga_args_from ps args idx w =
    {| seqs := b.2;
       regions := regions w;
       host := run_calls (set_arg_calls idx b.1) (host w);
       trace := trace w ++ (Frt <$> set_arg_calls idx b.1) |}.
Proof.
  induction ps as [|p ps IH]; intros [|a args] idx w; simpl;
    try (destruct w; simpl; by rewrite app_nil_r).
  rewrite select_fpga_spec. rewrite IH. simpl.
  destruct (accessor.select p a (seqs w)) as [v σ1]. simpl.
  destruct (Invoker.functor_with_accessors ps args σ1) as [vs σ2]. simpl.
  pose proof (set_arg_calls_cons idx v vs) as Hcons.
  unfold set_arg_calls in *. rewrite imap_cons in Hcons.
  injection Hcons as Hidx Hrest.
  rewrite Hidx, Hrest, <- app_assoc. reflexivity.
Qed.

Lemma invoke_fpga_spec (I : invoker) (bitstream : string) (args : list arg)
    (w : world) :
  let b := Invoker.functor_with_accessors (Invoker.Params I) args (seqs w) in
  let cs := driver_calls bitstream b.1 in
  Invoker.invoke_fpga I bitstream args w =
  (frt_compute_time_ns (run_calls cs (host w)),
   {| seqs := b.2;
      regions := regions w;
      host := run_calls (cs ++ [ComputeTimeNanoSeconds]) (host w);
      trace := trace w ++ (Frt <$> cs ++ [ComputeTimeNanoSeconds]) |}).
Proof.
  unfold Invoker.invoke_fpga, Invoker.set_fpga_args.
  rewrite set_fpga_args_from_spec. simpl.
  destruct (Invoker.functor_with_accessors _ _ _) as [vs σ]. simpl.
  unfold driver_calls, run_calls, Invoker.frt, with_host, emit. simpl.
  rewrite !foldl_app. simpl.
  rewrite !fmap_app. simpl. rewrite <- !app_assoc. simpl. reflexivity.
Qed.

(** C2. Every access through the sequence accessor returns the counter's
    current value (converted to the parameter type) and then increments the
    counter; the counter lives in the sequence object, so a later access to
    the same object, by either path, through any position, replica or
    invoke call, continues where the previous one stopped; and the
    hardware-side accessor follows the same protocol as the software-side
    one. Hence [set_fpga_args] leaves the counters [functor_with_accessors]
    leaves, in whichever order the latter's accessor calls are evaluated,
    and, when no sequence object fills two positions of the call, it passes
    to [SetArg] the very values [functor_with_accessors] binds, again in
    either order. *)
Theorem seq_accessor_shared_counter (p p' : param) (l : loc) (idx : Z)
    (σ : gmap loc Z) (this : task) (mode n : Z) (I : invoker)
    (args : list arg) (w : world) :
  let cur := seq_pos σ l in
  let σ' := <[l := int_succ cur]> σ in
  let ps := Invoker.Params I in
  let uses := count_occ Pos.eq_dec (seq_slots ps args) l in
  let ltr := Invoker.functor_with_accessors ps args (seqs w) in
  let rtl := Invoker.functor_with_accessors_rtl ps args (seqs w) in
  accessor.seq_access p l σ = (of_int p cur, σ') ∧
  accessor.seq_access_fpga p idx l σ = (SetArg idx (of_int p cur), idx + 1, σ') ∧
  seq_pos σ' l = int_succ cur ∧
  (INT_MIN ≤ cur < INT_MAX → int_succ cur = cur + 1) ∧
  (∀ l', l' ≠ l → seq_pos σ' l' = seq_pos σ l') ∧
  (accessor.seq_access p' l (accessor.seq_access p l σ).2).1 =
    of_int p' (int_succ cur) ∧
  (accessor.seq_access_fpga p' (idx + 1) l
     (accessor.seq_access p l σ).2).1.1 =
    SetArg (idx + 1) (of_int p' (int_succ cur)) ∧
  seqs (Invoker.set_fpga_args ps args w) = ltr.2 ∧
  seqs (Invoker.set_fpga_args ps args w) = rtl.2 ∧
  (NoDup (seq_slots ps args) →
     trace (Invoker.set_fpga_args ps args w) =
       trace w ++ (Frt <$> set_arg_calls 0 ltr.1) ∧
     trace (Invoker.set_fpga_args ps args w) =
       trace w ++ (Frt <$> set_arg_calls 0 rtl.1)) ∧
  seq_pos (seqs (Invoker.invoke I mode args w)) l =
    Nat.iter uses int_succ (seq_pos (seqs w) l) ∧
  seq_pos rtl.2 l = Nat.iter uses int_succ (seq_pos (seqs w) l) ∧
  seq_pos (seqs (Task.invoke_mode_n this mode n I args w).2) l =
    Nat.iter (Z.to_nat n * uses) int_succ (seq_pos (seqs w) l).
Proof.
  intros cur σ' ps uses ltr rtl.
  assert (seq_pos σ' l = int_succ cur) as Hnext.
  { subst σ'. rewrite seq_pos_insert. by rewrite decide_True. }
  split; [reflexivity |]. split; [reflexivity |]. split; [exact Hnext |].
  split; [apply int_succ_eq |].
  split.
  { intros l' Hne. subst σ'. rewrite seq_pos_insert.
    by rewrite decide_False. }
  split.
  { rewrite !seq_access_spec. simpl. fold cur. fold σ'. by rewrite Hnext. }
  split.
  { rewrite seq_access_fpga_spec, !seq_access_spec. simpl.
    fold cur. fold σ'. by rewrite Hnext. }
  assert (rtl.2 = ltr.2) as Hcounters
    by apply functor_with_accessors_rtl_counters.
  unfold Invoker.set_fpga_args. rewrite set_fpga_args_from_spec.
  cbn [seqs trace]. fold ltr.
  split; [reflexivity |]. split; [by rewrite Hcounters |]. split.
  { intros Hnd. split; [reflexivity |]. subst rtl ltr.
    by rewrite functor_with_accessors_order. }
  split; [| split].
  - rewrite invoke_unfold. simpl. apply functor_with_accessors_pos.
  - rewrite Hcounters. apply functor_with_accessors_pos.
  - rewrite invoke_mode_n_iter. apply iter_invoke_mode_pos.
Qed.

Lemma invoke_top_direct (I : invoker) (bitstream : string)
    (plain : list value) (k : Invoker.syscalls) (w : world) :
  bitstream ≠ "" →
  Invoker.invoke_top false I bitstream plain k w =
  (Invoker.Returned (Invoker.invoke_fpga I bitstream (Plain <$> plain) w).1,
   (Invoker.invoke_fpga I bitstream (Plain <$> plain) w).2).
Proof.
  intros Hne. unfold Invoker.invoke_top.
  apply String.eqb_neq in Hne. rewrite Hne. reflexivity.
Qed.

Lemma invoke_top_child (I : invoker) (bitstream : string)
    (plain : list value) (k : Invoker.syscalls) (w : world) :
  bitstream ≠ "" → Invoker.fork_ret k = 0 →
  let p := fresh (dom (regions w)) in
  let r := Invoker.invoke_fpga I bitstream (Plain <$> plain)
             (emit (Fork 0) (Invoker.allocate 8 w).2) in
  Invoker.invoke_top true I bitstream plain k w =
  (Invoker.Exited Invoker.EXIT_SUCCESS,
   emit (Exit Invoker.EXIT_SUCCESS) (Invoker.store p r.1 r.2)).
Proof.
  intros Hne Hchild. unfold Invoker.invoke_top.
  apply String.eqb_neq in Hne. rewrite Hne, Hchild. reflexivity.
Qed.

(** C6. A hardware run opens a device instance from the artifact, sets the
    kernel arguments under the indices 0, 1, 2, ... in parameter order,
    writes to the device, executes, reads back, finishes, and returns the
    compute time it queries last. The public [invoke] with a non-empty
    bitstream does exactly this: in the calling process when no new process
    is asked for, and in the child of the fork otherwise. *)
Theorem invoke_fpga_call_order (I : invoker) (bitstream : string)
    (args : list arg) (plain : list value) (k : Invoker.syscalls)
    (w : world) :
  let bound (a : list arg) :=
    (Invoker.functor_with_accessors (Invoker.Params I) a (seqs w)).1 in
  let calls (a : list arg) :=
    Frt (OpenInstance bitstream) :: (Frt <$> set_arg_calls 0 (bound a)) ++
    [Frt WriteToDevice; Frt Exec; Frt ReadFromDevice; Frt Finish;
     Frt ComputeTimeNanoSeconds] in
  let time (a : list arg) :=
    frt_compute_time_ns
      (run_calls (driver_calls bitstream (bound a)) (host w)) in
  let r := Invoker.invoke_fpga I bitstream args w in
  trace r.2 = trace w ++ calls args ∧
  r.1 = time args ∧
  length (set_arg_calls 0 (bound args)) = length (bound args) ∧
  (∀ (i : nat) v, bound args !! i = Some v →
     set_arg_calls 0 (bound args) !! i = Some (SetArg (Z.of_nat i) v)) ∧
  (bitstream ≠ "" →
     let d := Invoker.invoke_top false I bitstream plain k w in
     d.1 = Invoker.Returned (time (Plain <$> plain)) ∧
     trace d.2 = trace w ++ calls (Plain <$> plain)) ∧
  (bitstream ≠ "" → Invoker.fork_ret k = 0 →
     let c := Invoker.invoke_top true I bitstream plain k w in
     c.1 = Invoker.Exited Invoker.EXIT_SUCCESS ∧
     trace c.2 =
       trace w ++ [Allocate 8 (fresh (dom (regions w))); Fork 0] ++
       calls (Plain <$> plain) ++ [Exit Invoker.EXIT_SUCCESS]).
Proof.
  intros bound calls time r.
  assert (∀ a w', seqs w' = seqs w → host w' = host w →
            (Invoker.invoke_fpga I bitstream a w').1 = time a ∧
            trace (Invoker.invoke_fpga I bitstream a w').2 =
              trace w' ++ calls a) as Hrun.
  { intros a w' Hseqs Hhost. rewrite invoke_fpga_spec.
    subst time calls bound. cbn [fst snd trace]. rewrite Hseqs, Hhost.
    split; [reflexivity |]. f_equal. unfold driver_calls.
    rewrite fmap_app, fmap_cons, fmap_app. simpl.
    by rewrite <- app_assoc. }
  destruct (Hrun args w eq_refl eq_refl) as [Htime Htrace].
  split; [exact Htrace |]. split; [exact Htime |].
  split; [unfold set_arg_calls; by rewrite length_imap |].
  split.
  { intros i v Hv. unfold set_arg_calls. rewrite list_lookup_imap, Hv.
    cbn. do 2 f_equal. }
  split.
  - intros Hne d. subst d. rewrite invoke_top_direct by done.
    cbn [fst snd]. destruct (Hrun (Plain <$> plain) w eq_refl eq_refl)
      as [-> ->]. done.
  - intros Hne Hchild c. subst c. rewrite invoke_top_child by done.
    cbn [fst snd]. split; [reflexivity |].
    unfold emit at 1. cbn [trace]. unfold Invoker.store, with_regions.
    cbn [trace].
    destruct (Hrun (Plain <$> plain)
                (emit (Fork 0) (Invoker.allocate 8 w).2) eq_refl eq_refl)
      as [_ ->].
    cbn. rewrite <- !app_assoc. subst calls. cbn.
    rewrite <- !app_assoc. reflexivity.
Qed.

(** C3. With an empty bitstream the device runtime is not touched: after
    the log line [f] is applied once, directly to the arguments, and the
    call returns the steady-clock time that elapsed across that
    application, in nanoseconds, which is not negative. *)
Theorem invoke_top_software (run_in_new_process : bool) (I : invoker)
    (args : list value) (k : Invoker.syscalls) (w : world) :
  steady (FuncType I) →
  let f := FuncType I in
  let vs := zip_with convert (Invoker.Params I) args in
  let r := Invoker.invoke_top run_in_new_process I "" args k w in
  let elapsed :=
    steady_clock_now (body f vs (host w)) - steady_clock_now (host w) in
  r.1 = Invoker.Returned elapsed ∧
  0 ≤ elapsed ∧
  trace r.2 =
    trace w ++
    [Log "running software simulation with TAPA library"; Call f vs] ∧
  host r.2 = body f vs (host w) ∧
  regions r.2 = regions w ∧
  seqs r.2 = seqs w ∧
  (∀ c, Frt c ∈ trace r.2 → Frt c ∈ trace w).
Proof.
  intros Hsteady f vs r elapsed. subst r elapsed.
  unfold Invoker.invoke_top. simpl. fold f. fold vs.
  repeat split; try (by rewrite <- app_assoc).
  - specialize (Hsteady vs (host w)). fold f in Hsteady. lia.
  - intros c Hc. rewrite <- app_assoc in Hc. simpl in Hc.
    apply elem_of_app in Hc as [Hc | Hc]; [done |].
    apply elem_of_cons in Hc as [Hc | Hc]; [discriminate |].
    apply elem_of_cons in Hc as [Hc | Hc]; [discriminate |].
    by apply elem_of_nil in Hc.
Qed.

(** ** Process isolation *)

Lemma invoke_top_parent (I : invoker) (bitstream : string)
    (plain : list value) (k : Invoker.syscalls) (w : world) :
  bitstream ≠ "" → Invoker.fork_ret k ≠ 0 →
  let p := fresh (dom (regions w)) in
  let pid := Invoker.fork_ret k in
  let status := Invoker.wait_status k in
  let w2 := emit (Fork pid) (Invoker.allocate 8 w).2 in
  let w3 := Invoker.wait k w2 in
  Invoker.invoke_top true I bitstream plain k w =
  if pid =? -1 then (Invoker.Aborted "pid != -1", w2)
  else if negb (Invoker.wait_ret k =? pid) then
    (Invoker.Aborted "wait(&status) == pid", w3)
  else if negb (Invoker.WIFEXITED status) then
    (Invoker.Aborted "WIFEXITED(status)", w3)
  else if negb (Invoker.WEXITSTATUS status =? Invoker.EXIT_SUCCESS) then
    (Invoker.Aborted "WEXITSTATUS(status) == EXIT_SUCCESS", w3)
  else (Invoker.Returned (Invoker.load p w3), Invoker.deallocate p 8 w3).
Proof.
  intros Hne Hparent. unfold Invoker.invoke_top.
  apply String.eqb_neq in Hne. rewrite Hne.
  apply Z.eqb_neq in Hparent. cbn [Invoker.allocate]. rewrite Hparent.
  reflexivity.
Qed.

Lemma child_succeeded_dec (k : Invoker.syscalls) :
  child_succeeded k ∨ ¬ child_succeeded k.
Proof.
  unfold child_succeeded.
  destruct (decide (Invoker.fork_ret k = -1)); [right; tauto |].
  destruct (decide (Invoker.wait_ret k = Invoker.fork_ret k));
    [| right; tauto].
  destruct (Invoker.WIFEXITED (Invoker.wait_status k)) eqn:?;
    [| right; intros (_ & _ & ? & _); discriminate].
  destruct (decide (Invoker.WEXITSTATUS (Invoker.wait_status k) =
                    Invoker.EXIT_SUCCESS)); [left; tauto | right; tauto].
Qed.

Lemma invoke_top_parent_accepts (I : invoker) (bitstream : string)
    (plain : list value) (k : Invoker.syscalls) (w : world) :
  bitstream ≠ "" → Invoker.fork_ret k ≠ 0 → child_succeeded k →
  let p := fresh (dom (regions w)) in
  let w3 := Invoker.wait k (emit (Fork (Invoker.fork_ret k))
                              (Invoker.allocate 8 w).2) in
  Invoker.invoke_top true I bitstream plain k w =
  (Invoker.Returned (Invoker.load p w3), Invoker.deallocate p 8 w3).
Proof.
  intros Hne Hparent (Hfork & Hwait & Hexited & Hcode).
  rewrite invoke_top_parent by done. cbn zeta.
  apply Z.eqb_neq in Hfork. rewrite Hfork.
  apply Z.eqb_eq in Hwait. rewrite Hwait, Hexited.
  apply Z.eqb_eq in Hcode. rewrite Hcode. reflexivity.
Qed.

Lemma invoke_top_parent_rejects (I : invoker) (bitstream : string)
    (plain : list value) (k : Invoker.syscalls) (w : world) :
  bitstream ≠ "" → Invoker.fork_ret k ≠ 0 → ¬ child_succeeded k →
  ∃ check,
    (Invoker.invoke_top true I bitstream plain k w).1 = Invoker.Aborted check.
Proof.
  intros Hne Hparent Hfail. rewrite invoke_top_parent by done. cbn zeta.
  destruct (Invoker.fork_ret k =? -1) eqn:Hfork; [by eexists |].
  destruct (Invoker.wait_ret k =? Invoker.fork_ret k) eqn:Hwait;
    [| by eexists].
  destruct (Invoker.WIFEXITED (Invoker.wait_status k)) eqn:Hexited;
    [| by eexists].
  destruct (Invoker.WEXITSTATUS (Invoker.wait_status k) =?
            Invoker.EXIT_SUCCESS) eqn:Hcode; [| by eexists].
  destruct Hfail. unfold child_succeeded.
  apply Z.eqb_neq in Hfork. apply Z.eqb_eq in Hwait. apply Z.eqb_eq in Hcode.
  done.
Qed.

(** The child's run as the parent's kernel reports it. *)
Lemma invoke_top_forked_time (I : invoker) (bitstream : string)
    (plain : list value) (pid : Z) (w : world) :
  bitstream ≠ "" → pid ≠ 0 → pid ≠ -1 →
  (Invoker.invoke_top_forked I bitstream plain pid w).1 =
  Invoker.Returned (kernel_time I bitstream plain w).
Proof.
  intros Hne Hparent Hfork. unfold Invoker.invoke_top_forked.
  rewrite (invoke_top_child I bitstream plain Invoker.child_syscalls w)
    by done.
  cbn zeta. rewrite invoke_top_parent_accepts; [| done | done |].
  - cbn [fst]. f_equal. unfold Invoker.load, Invoker.wait, with_regions.
    cbn [regions Invoker.parent_syscalls Invoker.wait_shared snd].
    unfold emit at 1, Invoker.store, with_regions. cbn [regions].
    erewrite lookup_union_Some_l by apply lookup_insert_eq.
    rewrite invoke_fpga_spec. reflexivity.
  - unfold child_succeeded. cbn. done.
Qed.

(** C4. With a non-empty bitstream and a new process asked for, the process
    that is the parent allocates the one-[int64_t] region before it forks;
    it returns a time only if the fork worked, [wait] reported the child,
    and the child exited normally with [EXIT_SUCCESS], and the time is then
    what the shared region holds, read before the region is released; on
    any other status a [CHECK] fails and no time is returned. When the
    child runs to its [exit], the time so communicated is the kernel time
    the child measured. *)
Theorem invoke_top_new_process (I : invoker) (bitstream : string)
    (plain : list value) (k : Invoker.syscalls) (w : world) :
  bitstream ≠ "" → Invoker.fork_ret k ≠ 0 →
  let p := fresh (dom (regions w)) in
  let pid := Invoker.fork_ret k in
  let r := Invoker.invoke_top true I bitstream plain k w in
  let at_wait := Invoker.wait_shared k ∪ <[p := 0]> (regions w) in
  regions w !! p = None ∧
  (∃ rest, trace r.2 = trace w ++ Allocate 8 p :: Fork pid :: rest) ∧
  (child_succeeded k →
     r.1 = Invoker.Returned (default 0 (at_wait !! p)) ∧
     trace r.2 =
       trace w ++
       [Allocate 8 p; Fork pid;
        Wait (Invoker.wait_ret k) (Invoker.wait_status k);
        Deallocate p 8] ∧
     regions r.2 !! p = None) ∧
  (∀ t, child_succeeded k → Invoker.wait_shared k !! p = Some t →
        r.1 = Invoker.Returned t) ∧
  (¬ child_succeeded k → ∃ check, r.1 = Invoker.Aborted check) ∧
  (∀ ns, r.1 = Invoker.Returned ns → child_succeeded k) ∧
  (pid ≠ -1 →
     (Invoker.invoke_top_forked I bitstream plain pid w).1 =
       Invoker.Returned (kernel_time I bitstream plain w)).
Proof.
  intros Hne Hparent p pid r at_wait.
  assert (regions w !! p = None) as Hfresh.
  { apply not_elem_of_dom. apply is_fresh. }
  split; [exact Hfresh |].
  assert (child_succeeded k →
          r.1 = Invoker.Returned (default 0 (at_wait !! p)) ∧
          trace r.2 =
            trace w ++
            [Allocate 8 p; Fork pid;
             Wait (Invoker.wait_ret k) (Invoker.wait_status k);
             Deallocate p 8] ∧
          regions r.2 !! p = None) as Hok.
  { intros Hsucc. subst r. rewrite invoke_top_parent_accepts by done.
    cbn. rewrite <- !app_assoc. repeat split.
    apply lookup_delete_eq. }
  split.
  { subst r. rewrite invoke_top_parent by done. cbn zeta.
    repeat case_match; cbn; rewrite <- ?app_assoc; eexists; reflexivity. }
  split; [exact Hok |].
  split.
  { intros t Hsucc Ht. destruct (Hok Hsucc) as [-> _]. f_equal.
    subst at_wait. by erewrite lookup_union_Some_l. }
  split; [by apply invoke_top_parent_rejects |].
  split.
  - intros ns Hret. destruct (child_succeeded_dec k) as [|Hfail]; [done |].
    destruct (invoke_top_parent_rejects I bitstream plain k w Hne Hparent
                Hfail) as [check Hcheck].
    fold r in Hcheck. congruence.
  - intros Hfork. by apply invoke_top_forked_time.
Qed.

End Hardware.

(** ** The statements at concrete calls *)

Section Concrete.
#[local] Existing Instance demo.demo_host.

(** The three ways [invoker::invoke] treats a mode. *)
Example dispatch_by_mode :
  let run (mode : Z) := Invoker.invoke demo.I2 mode [Plain 1; Plain 2]
                          demo.w0 in
  trace (run 1) = [Call demo.f2 [1; 2]] ∧ host (run 1) = 7 ∧
  trace (run join) = [Schedule false demo.f2 [1; 2]] ∧ host (run join) = 0 ∧
  trace (run detach) = [Schedule true demo.f2 [1; 2]].
Proof. repeat split. Qed.

(** [task().invoke<join, 3>(f2, 42, seq())]. *)
Example replicate_three :
  trace (Task.invoke_mode_n demo.plain_task join 3 demo.I2
           [Plain 42; Seq demo.shared] demo.w0).2 =
  [Schedule false demo.f2 [42; 0]; Schedule false demo.f2 [42; 1];
   Schedule false demo.f2 [42; 2]].
Proof. reflexivity. Qed.

(** Two invoke calls that reuse one sequence object continue its count. *)
Example replicate_twice :
  let first :=
    Task.invoke_mode_n demo.plain_task join 2 demo.I2
      [Plain 42; Seq demo.shared] demo.w0 in
  trace (Task.invoke_mode_n first.1 detach 2 demo.I2
           [Plain 7; Seq demo.shared] first.2).2 =
  [Schedule false demo.f2 [42; 0]; Schedule false demo.f2 [42; 1];
   Schedule true demo.f2 [7; 2]; Schedule true demo.f2 [7; 3]].
Proof. reflexivity. Qed.

(** One sequence object in both positions: the replicas share its counter
    position by position. *)
Example replicate_shared_seq :
  trace (Task.invoke_mode_n demo.plain_task join 2 demo.I2
           [Seq demo.shared; Seq demo.shared] demo.w0).2 =
  [Schedule false demo.f2 [0; 1]; Schedule false demo.f2 [2; 3]].
Proof. reflexivity. Qed.

(** C1, witness: three replicas of [f2(42, seq())]. *)
Lemma invoke_mode_n_replicates_witness :
  replicates_as_specified demo.plain_task join 3 demo.I2
    [Plain 42; Seq demo.shared] demo.w0 ∧
  length (trace (Task.invoke_mode_n demo.plain_task join 3 demo.I2
                   [Plain 42; Seq demo.shared] demo.w0).2) =
    (length (trace demo.w0) + Z.to_nat 3)%nat.
Proof.
  apply invoke_mode_n_replicates.
  - unfold INT_MAX. lia.
  - cbn. apply NoDup_singleton.
  - intros l _. reflexivity.
Defined.

(** C1, counterexample: the counter of the sequence object starts at 0, but
    with the object bound to both positions the second replica receives 2
    and 3, not 1 and 1. *)
Lemma invoke_mode_n_shared_seq_counterexample :
  seq_pos (seqs demo.w0) demo.shared = 0 ∧
  ¬ replicates_as_specified demo.plain_task join 2 demo.I2
      [Seq demo.shared; Seq demo.shared] demo.w0.
Proof.
  split; [reflexivity |].
  intros [_ Htrace]. rewrite replicate_shared_seq in Htrace.
  apply (f_equal (λ tr : list (@event demo.demo_host),
                    match tr return Z with
                    | [_; Schedule _ _ [v; _]] => v
                    | _ => 0
                    end)) in Htrace.
  vm_compute in Htrace. discriminate Htrace.
Qed.

(** C7, counterexample: on a task object whose mode override is 1, the
    plain invoke runs the child at once instead of scheduling it joined. *)
Lemma invoke_plain_override_counterexample :
  trace (Task.invoke demo.sequential_task demo.I2 [Plain 1; Plain 2]
           demo.w0).2 = [Call demo.f2 [1; 2]] ∧
  ¬ plain_invoke_as_specified demo.sequential_task demo.I2
      [Plain 1; Plain 2] demo.w0.
Proof.
  split; [reflexivity |].
  intros [_ [vs Htrace]]. cbn in Htrace. discriminate Htrace.
Qed.

(** C3, witness: [f2] takes 7 ns of the steady clock. *)
Lemma invoke_top_software_witness :
  (Invoker.invoke_top true demo.I2 "" [1; 2] Invoker.child_syscalls
     demo.w0).1 = Invoker.Returned 7.
Proof.
  assert (steady (FuncType demo.I2)) as Hsteady.
  { intros vs e. cbn. lia. }
  exact (proj1 (invoke_top_software true demo.I2 [1; 2]
                  Invoker.child_syscalls demo.w0 Hsteady)).
Defined.

(** A hardware run on [f2(1, seq())]. *)
Example hardware_run :
  trace (Invoker.invoke_fpga demo.I2 "vadd.xo" [Plain 1; Seq demo.shared]
           demo.w0).2 =
  [Frt (OpenInstance "vadd.xo"); Frt (SetArg 0 1); Frt (SetArg 1 0);
   Frt WriteToDevice; Frt Exec; Frt ReadFromDevice; Frt Finish;
   Frt ComputeTimeNanoSeconds].
Proof. reflexivity. Qed.

(** The same run in a forked child whose pid is 77, seen from the parent. *)
Example forked_run :
  let r := Invoker.invoke_top_forked demo.I2 "vadd.xo" [1; 2] 77 demo.w0 in
  r.1 = Invoker.Returned 1000 ∧
  trace r.2 =
    [Allocate 8 1%positive; Fork 77; Wait 77 0; Deallocate 1%positive 8].
Proof. vm_compute. split; reflexivity. Qed.

(** A child that exits with status 1 makes the parent abort. *)
Example child_failure_aborts :
  (Invoker.invoke_top true demo.I2 "vadd.xo" [1; 2] demo.child_exited_1
     demo.w0).1 = Invoker.Aborted "WEXITSTATUS(status) == EXIT_SUCCESS".
Proof. reflexivity. Qed.

(** C4, witness: the parent of a child that stored 1000 and exited with
    [EXIT_SUCCESS]. *)
Lemma invoke_top_new_process_witness :
  (Invoker.invoke_top true demo.I2 "vadd.xo" [1; 2] demo.child_exited_ok
     demo.w0).1 = Invoker.Returned 1000.
Proof.
  assert ("vadd.xo" ≠ "") as Hne by discriminate.
  assert (Invoker.fork_ret demo.child_exited_ok ≠ 0) as Hparent by (cbn; lia).
  destruct (invoke_top_new_process demo.I2 "vadd.xo" [1; 2] demo.child_exited_ok
              demo.w0 Hne Hparent) as (_ & _ & _ & Hshared & _).
  apply Hshared.
  - unfold child_succeeded. cbn. repeat split; lia.
  - reflexivity.
Defined.

(** C5, witness: [int g1(int)] is rejected. *)
Lemma invoker_requires_void_witness :
  Invoker.instantiate demo.g1 = Rejected "task function must return void".
Proof.
  assert (return_type demo.g1 ≠ TVoid) as Hret by discriminate.
  exact (proj1 (invoker_requires_void demo.g1 Hret)).
Defined.

(** C10, witness: [invoke<detach, -2>] and [invoke<join, 0>] create
    nothing. *)
Lemma invoke_mode_n_nonpositive_witness :
  Task.invoke_mode_n demo.plain_task detach (-2) demo.I2
    [Plain 42; Seq demo.shared] demo.w0 = (demo.plain_task, demo.w0) ∧
  Task.invoke_mode_n demo.sequential_task join 0 demo.I2
    [Plain 42; Seq demo.shared] demo.w0 = (demo.sequential_task, demo.w0).
Proof.
  split.
  - apply (invoke_mode_n_nonpositive demo.plain_task detach (-2) demo.I2 "").
    lia.
  - apply (invoke_mode_n_nonpositive demo.sequential_task join 0 demo.I2 "").
    lia.
Defined.

End Concrete.

(** * Further properties of the instantiation model *)

Section Replicas.
Context `{Host}.

Lemma after_replicas_this (this : task) (mode : Z) (I : invoker)
    (args : list arg) (w : world) (k : nat) :
  (after_replicas this mode I args w k).1 = this.
Proof. apply iter_invoke_mode_fst. Qed.

Lemma after_replicas_S (this : task) (mode : Z) (I : invoker)
    (args : list arg) (w : world) (k : nat) :
  after_replicas this mode I args w (S k) =
  (this,
   Invoker.invoke I (effective_mode this mode) args
     (after_replicas this mode I args w k).2).
Proof.
  unfold after_replicas at 1. simpl. fold (after_replicas this mode I args w k).
  pose proof (after_replicas_this this mode I args w k) as Hthis.
  destruct (after_replicas this mode I args w k) as [t wk]. simpl in *.
  by subst.
Qed.

(** The children of a replicated invoke, whatever the arguments share. *)
Lemma after_replicas_trace (this : task) (mode : Z) (I : invoker)
    (args : list arg) (w : world) (k : nat) :
  trace (after_replicas this mode I args w k).2 =
  trace w ++
  ((λ i, instantiated (effective_mode this mode) (FuncType I)
           (replica_values this mode I args w i)) <$> seq 0 k).
Proof.
  induction k as [|k IH].
  - simpl. by rewrite app_nil_r.
  - rewrite after_replicas_S, invoke_unfold. cbn [snd trace].
    rewrite IH, seq_S, fmap_app, app_assoc. reflexivity.
Qed.

Lemma after_replicas_frame (this : task) (mode : Z) (I : invoker)
    (args : list arg) (w : world) (k : nat) :
  regions (after_replicas this mode I args w k).2 = regions w ∧
  (effective_mode this mode ≤ 0 →
   host (after_replicas this mode I args w k).2 = host w).
Proof.
  induction k as [|k [IHr IHh]]; [done |].
  rewrite after_replicas_S, invoke_unfold. cbn [snd regions host].
  split; [exact IHr |]. intros Hmode.
  assert ((0 <? effective_mode this mode) = false) as ->
    by (apply Z.ltb_ge; lia).
  by apply IHh.
Qed.

Lemma functor_with_accessors_untouched (ps : list param) :
  ∀ (args : list arg) (σ : gmap loc Z) (l : loc),
    l ∉ seq_slots ps args →
    (Invoker.functor_with_accessors ps args σ).2 !! l = σ !! l.
Proof.
  induction ps as [|p ps IH]; intros [|a args] σ l Hl; simpl; try done.
  destruct a as [v|l0]; simpl in *.
  - specialize (IH args σ l Hl).
    by destruct (Invoker.functor_with_accessors ps args σ) as [vs σ2].
  - apply not_elem_of_cons in Hl as [Hne Hl].
    specialize (IH args (<[l0 := (post_incr (seq_pos σ l0)).2]> σ) l Hl).
    destruct (Invoker.functor_with_accessors ps args _) as [vs σ2].
    simpl in *. rewrite IH. by rewrite lookup_insert_ne.
Qed.

Lemma after_replicas_untouched (this : task) (mode : Z) (I : invoker)
    (args : list arg) (w : world) (l : loc) (k : nat) :
  l ∉ seq_slots (Invoker.Params I) args →
  seqs (after_replicas this mode I args w k).2 !! l = seqs w !! l.
Proof.
  intros Hl. induction k as [|k IH]; [done |].
  rewrite after_replicas_S, invoke_unfold. cbn [snd seqs].
  by rewrite functor_with_accessors_untouched.
Qed.

(** X1. A replicated invoke only adds children: it appends exactly
    [max(n, 0)] instantiations of [func], all in the effective mode, to what
    was instantiated before, leaves the shared regions and every sequence
    object that is not among its arguments as they were, and, when the
    effective mode is not positive, runs nothing in the caller. This holds
    for every argument list, also one that binds a sequence object twice. *)
Theorem invoke_mode_n_frame (this : task) (mode n : Z) (I : invoker)
    (args : list arg) (w : world) :
  let r := Task.invoke_mode_n this mode n I args w in
  let m := effective_mode this mode in
  (∃ children,
     trace r.2 = trace w ++ children ∧
     length children = Z.to_nat n ∧
     Forall (λ ev, ∃ vs, ev = instantiated m (FuncType I) vs) children) ∧
  regions r.2 = regions w ∧
  (∀ l, l ∉ seq_slots (Invoker.Params I) args →
        seqs r.2 !! l = seqs w !! l) ∧
  (m ≤ 0 → host r.2 = host w).
Proof.
  intros r m. subst r. rewrite invoke_mode_n_iter.
  fold (after_replicas this mode I args w (Z.to_nat n)).
  destruct (after_replicas_frame this mode I args w (Z.to_nat n))
    as [Hregions Hhost].
  split; [| split; [exact Hregions | split; [| exact Hhost]]].
  - eexists. split; [apply after_replicas_trace |].
    split; [by rewrite length_fmap, length_seq |].
    apply Forall_fmap, Forall_forall. intros i _. by eexists.
  - intros l Hl. by apply after_replicas_untouched.
Qed.

(** The value a position receives within one call. *)
Lemma functor_with_accessors_lookup (ps : list param) :
  ∀ (args : list arg) (σ : gmap loc Z) (j : nat) (p : param),
    ps !! j = Some p →
    (∀ v, args !! j = Some (Plain v) →
          (Invoker.functor_with_accessors ps args σ).1 !! j =
            Some (convert p v)) ∧
    (∀ l, args !! j = Some (Seq l) →
          (Invoker.functor_with_accessors ps args σ).1 !! j =
            Some (of_int p (Nat.iter (uses_before ps args j l) int_succ
                              (seq_pos σ l)))).
Proof.
  induction ps as [|p0 ps IH]; intros args σ j p Hp; [done |].
  destruct args as [|a args]; [by split; intros ? Ha |].
  - destruct j as [|j].
    + injection Hp as ->. simpl.
      destruct (accessor.select p a σ) as [v0 σ1] eqn:Hsel.
      destruct (Invoker.functor_with_accessors ps args σ1) as [vs σ2].
      split; intros x Ha; injection Ha as ->; simpl in *;
        by injection Hsel as <- _.
    + simpl in Hp. simpl.
      destruct (accessor.select p0 a σ) as [v0 σ1] eqn:Hsel.
      destruct (IH args σ1 j p Hp) as [IHplain IHseq].
      destruct (Invoker.functor_with_accessors ps args σ1) as [vs σ2].
      simpl in *. split; [exact IHplain |].
      intros l Ha. rewrite (IHseq l Ha). do 2 f_equal.
      unfold uses_before, uses. destruct a as [v|l0]; simpl in *.
      * by injection Hsel as _ <-.
      * injection Hsel as _ <-. rewrite seq_pos_insert.
        destruct (Pos.eq_dec l0 l) as [->|Hne].
        -- rewrite decide_True by done. simpl.
           change (wrap_int (seq_pos σ l + 1)) with (int_succ (seq_pos σ l)).
           apply iter_shift.
        -- by rewrite decide_False.
Qed.

(** The same for the accessor calls run right to left: what counts are the
    later positions. *)
Lemma functor_with_accessors_rtl_lookup (ps : list param) :
  ∀ (args : list arg) (σ : gmap loc Z) (j : nat) (p : param),
    ps !! j = Some p →
    (∀ v, args !! j = Some (Plain v) →
          (Invoker.functor_with_accessors_rtl ps args σ).1 !! j =
            Some (convert p v)) ∧
    (∀ l, args !! j = Some (Seq l) →
          (Invoker.functor_with_accessors_rtl ps args σ).1 !! j =
            Some (of_int p (Nat.iter (uses_after ps args j l) int_succ
                              (seq_pos σ l)))).
Proof.
  induction ps as [|p0 ps IH]; intros args σ j p Hp; [done |].
  destruct args as [|a args]; [by split; intros ? Ha |].
  destruct j as [|j].
  - injection Hp as ->. simpl.
    pose proof (functor_with_accessors_rtl_counters ps args σ) as Hcnt.
    pose proof (λ l, functor_with_accessors_pos ps args σ l) as Hpos.
    destruct (Invoker.functor_with_accessors_rtl ps args σ) as [vs σ1].
    simpl in Hcnt. subst σ1.
    split; intros x Ha; injection Ha as ->; simpl; [done |].
    by rewrite Hpos.
  - simpl in Hp. simpl.
    destruct (IH args σ j p Hp) as [IHplain IHseq].
    destruct (Invoker.functor_with_accessors_rtl ps args σ) as [vs σ1].
    destruct (accessor.select p0 a σ1) as [v0 σ2]. simpl in *.
    split; [exact IHplain | exact IHseq].
Qed.

(** The positions bound to a sequence object, around one of them. *)
Lemma uses_split (ps : list param) :
  ∀ (args : list arg) (j : nat) (p : param) (l : loc),
    ps !! j = Some p → args !! j = Some (Seq l) →
    uses ps args l =
    (uses_before ps args j l + 1 + uses_after ps args j l)%nat.
Proof.
  unfold uses_before, uses_after, uses.
  induction ps as [|p0 ps IH]; intros [|a args] j p l Hp Ha; try done.
  destruct j as [|j].
  - injection Ha as ->. simpl.
    destruct (Pos.eq_dec l l) as [_|Hne]; [done | by destruct Hne].
  - simpl in Hp, Ha. specialize (IH args j p l Hp Ha).
    destruct a as [v|l0]; simpl; [exact IH |].
    destruct (Pos.eq_dec l0 l); simpl; lia.
Qed.

(** X2. What a position receives in a replicated invoke that does not
    depend on the order in which the accessor calls are evaluated: a plain
    argument is converted to the parameter type, in every replica; and a
    position bound to a sequence object that no other position of the call
    is bound to receives, in replica [i], the counter the object had at the
    call advanced [i] times, whatever that counter was and whatever the
    other positions share among themselves. The state a replica starts from
    is the same in either order, and both the left-to-right and the
    right-to-left evaluation bind these values at that position. *)
Theorem replica_value_at (this : task) (mode n : Z) (I : invoker)
    (args : list arg) (w : world) (i j : nat) (p : param) :
  (i < Z.to_nat n)%nat →
  Invoker.Params I !! j = Some p →
  let r := Task.invoke_mode_n this mode n I args w in
  let ps := Invoker.Params I in
  let σi := seqs (after_replicas this mode I args w i).2 in
  let rtl := (Invoker.functor_with_accessors_rtl ps args σi).1 in
  ∃ vs,
    trace r.2 !! (length (trace w) + i)%nat =
      Some (instantiated (effective_mode this mode) (FuncType I) vs) ∧
    (∀ v, args !! j = Some (Plain v) →
          vs !! j = Some (convert p v) ∧ rtl !! j = Some (convert p v)) ∧
    (∀ l, args !! j = Some (Seq l) → uses ps args l = 1%nat →
          let x := of_int p (Nat.iter i int_succ (seq_pos (seqs w) l)) in
          vs !! j = Some x ∧ rtl !! j = Some x).
Proof.
  intros Hi Hp r ps σi rtl. subst r ps rtl. rewrite invoke_mode_n_iter.
  fold (after_replicas this mode I args w (Z.to_nat n)).
  exists (replica_values this mode I args w i). split.
  { rewrite after_replicas_trace. rewrite lookup_app_r by lia.
    replace (length (trace w) + i - length (trace w))%nat with i by lia.
    rewrite list_lookup_fmap, lookup_seq_lt by done. reflexivity. }
  unfold replica_values. fold σi.
  destruct (functor_with_accessors_lookup (Invoker.Params I) args σi j p Hp)
    as [Hplain Hseq].
  destruct (functor_with_accessors_rtl_lookup (Invoker.Params I) args σi j p
              Hp) as [Hplain' Hseq'].
  split; [intros v Ha; split; [by apply Hplain | by apply Hplain'] |].
  intros l Ha Hone.
  pose proof (uses_split (Invoker.Params I) args j p l Hp Ha) as Hsplit.
  assert (seq_pos σi l = Nat.iter i int_succ (seq_pos (seqs w) l)) as Hstart.
  { subst σi. unfold after_replicas. rewrite iter_invoke_mode_pos.
    fold (uses (Invoker.Params I) args l). rewrite Hone.
    by rewrite Nat.mul_1_r. }
  rewrite (Hseq l Ha), (Hseq' l Ha), Hstart.
  replace (uses_before (Invoker.Params I) args j l) with 0%nat by lia.
  replace (uses_after (Invoker.Params I) args j l) with 0%nat by lia.
  done.
Qed.

(** X3. Replication composes: [invoke<mode, a + b>] does what
    [invoke<mode, a>] followed by [invoke<mode, b>] on the returned parent
    does, and [invoke<mode, 1>] is [invoke<mode>]. *)
Theorem invoke_mode_n_add (this : task) (mode a b : Z) (I : invoker)
    (args : list arg) (w : world) :
  0 ≤ a → 0 ≤ b →
  let first := Task.invoke_mode_n this mode a I args w in
  Task.invoke_mode_n this mode (a + b) I args w =
    Task.invoke_mode_n first.1 mode b I args first.2 ∧
  Task.invoke_mode_n this mode 1 I args w =
    Task.invoke_mode this mode I args w.
Proof.
  intros Ha Hb first. split; [| reflexivity]. subst first.
  rewrite !invoke_mode_n_iter.
  replace (Z.to_nat (a + b)) with (Z.to_nat b + Z.to_nat a)%nat by lia.
  rewrite Nat.iter_add.
  by destruct (Nat.iter (Z.to_nat a) _ (this, w)).
Qed.

(** X4. When the effective mode is positive, the replicated invoke runs the
    children in the caller, one after the other in creation order: nothing
    is handed to the scheduler, and the state is what the bodies, applied
    in that order to the bound values, make of it. *)
Theorem invoke_mode_n_sequential (this : task) (mode n : Z) (I : invoker)
    (args : list arg) (w : world) :
  0 < effective_mode this mode →
  let r := Task.invoke_mode_n this mode n I args w in
  let bound := replica_values this mode I args w <$> seq 0 (Z.to_nat n) in
  trace r.2 = trace w ++ (Call (FuncType I) <$> bound) ∧
  host r.2 = foldl (λ e vs, body (FuncType I) vs e) (host w) bound ∧
  (∀ d f vs, Schedule d f vs ∈ trace r.2 → Schedule d f vs ∈ trace w).
Proof.
  intros Hmode r bound. subst r bound. rewrite invoke_mode_n_iter.
  fold (after_replicas this mode I args w (Z.to_nat n)).
  assert ((0 <? effective_mode this mode) = true) as Hpos
    by (apply Z.ltb_lt; lia).
  assert (trace (after_replicas this mode I args w (Z.to_nat n)).2 =
          trace w ++
          (Call (FuncType I) <$>
             (replica_values this mode I args w <$> seq 0 (Z.to_nat n))))
    as Htrace.
  { rewrite after_replicas_trace. f_equal. rewrite <- list_fmap_compose.
    apply list_fmap_ext. intros ? i _. unfold instantiated. simpl.
    by rewrite Hpos. }
  split; [exact Htrace |]. split.
  - induction (Z.to_nat n) as [|k IH]; [done |].
    rewrite after_replicas_S, invoke_unfold. cbn [snd host].
    rewrite Hpos, seq_S, fmap_app, foldl_app. simpl.
    rewrite <- IH; [reflexivity |].
    rewrite after_replicas_trace. f_equal. rewrite <- list_fmap_compose.
    apply list_fmap_ext. intros ? i _. unfold instantiated. simpl.
    by rewrite Hpos.
  - intros d f vs Hin. rewrite Htrace in Hin.
    apply elem_of_app in Hin as [Hin | Hin]; [done |].
    apply list_elem_of_fmap_1 in Hin as (? & Heq & _). discriminate Heq.
Qed.

(** X5. A mode override on the task object decides alone: whichever mode
    the call names, and whichever name it gives the child, every invoke
    variant, replicated or not, does the same. *)
Theorem mode_override_decides (this : task) (m mode mode' n : Z)
    (I : invoker) (name name' : string) (args : list arg) (w : world) :
  mode_override this = Some m →
  Task.invoke_mode_name this mode I name args w =
    (this, Invoker.invoke I m args w) ∧
  Task.invoke this I args w = Task.invoke_mode this mode I args w ∧
  Task.invoke_name this I name args w =
    Task.invoke_mode_name this mode' I name' args w ∧
  Task.invoke_mode_n_name this mode n I name args w =
    Task.invoke_mode_n_name this mode' n I name' args w.
Proof.
  intros Hover.
  assert (∀ md nm, Task.invoke_mode_name this md I nm args w =
                   (this, Invoker.invoke I m args w)) as Hone.
  { intros md nm. unfold Task.invoke_mode_name. by rewrite Hover. }
  split; [apply Hone |].
  unfold Task.invoke, Task.invoke_name, Task.invoke_mode.
  rewrite !Hone. split; [done |]. split; [done |].
  pose proof (invoke_mode_n_iter this mode n I args w) as Hl.
  pose proof (invoke_mode_n_iter this mode' n I args w) as Hr.
  unfold Task.invoke_mode_n in Hl, Hr.
  unfold Task.invoke_mode_n_name in *. rewrite Hl, Hr. clear Hl Hr.
  fold (after_replicas this mode I args w (Z.to_nat n)).
  fold (after_replicas this mode' I args w (Z.to_nat n)).
  induction (Z.to_nat n) as [|k IH]; [done |].
  rewrite !after_replicas_S, IH. unfold effective_mode.
  by rewrite Hover.
Qed.

End Replicas.

(** * Further properties of the hardware path *)

Section Driver.
Context `{Host}.

(** Plain arguments leave every sequence object alone. *)
Lemma functor_with_accessors_plain (ps : list param) :
  ∀ (vs : list value) (σ : gmap loc Z),
    Invoker.functor_with_accessors ps (Plain <$> vs) σ =
    (zip_with convert ps vs, σ).
Proof.
  induction ps as [|p ps IH]; intros [|v vs] σ; simpl; try done.
  by rewrite IH.
Qed.

(** X6. The two ways the top-level [invoke] can go hand the task the same
    values: with an empty bitstream [f] is applied to the arguments
    converted to its parameter types, and with a bitstream those very
    values are what [SetArg] receives, position by position, between the
    opening of the instance and the transfer to the device. Neither way
    advances a sequence counter or touches the shared regions. *)
Theorem invoke_top_same_values (I : invoker) (bitstream : string)
    (args : list value) (k k' : Invoker.syscalls) (w : world) :
  bitstream ≠ "" →
  let vs := zip_with convert (Invoker.Params I) args in
  let sw := Invoker.invoke_top false I "" args k w in
  let hw := Invoker.invoke_top false I bitstream args k' w in
  trace sw.2 =
    trace w ++
    [Log "running software simulation with TAPA library";
     Call (FuncType I) vs] ∧
  trace hw.2 =
    trace w ++ Frt (OpenInstance bitstream) ::
    (Frt <$> set_arg_calls 0 vs) ++
    [Frt WriteToDevice; Frt Exec; Frt ReadFromDevice; Frt Finish;
     Frt ComputeTimeNanoSeconds] ∧
  seqs sw.2 = seqs w ∧ seqs hw.2 = seqs w ∧
  regions sw.2 = regions w ∧ regions hw.2 = regions w.
Proof.
  intros Hne vs sw hw. subst sw hw.
  rewrite (invoke_top_direct I bitstream args k' w) by done.
  rewrite invoke_fpga_spec.
  rewrite functor_with_accessors_plain. cbn [fst snd trace seqs regions].
  fold vs. split.
  { unfold Invoker.invoke_top. simpl. by rewrite <- app_assoc. }
  split.
  { f_equal. unfold driver_calls. rewrite fmap_app, fmap_cons, fmap_app.
    simpl. by rewrite <- app_assoc. }
  done.
Qed.

(** X7. A run in a new process whose child reaches its [exit] leaves the
    parent as it was: the region it allocated is released again, so the
    shared regions are those from before the call, no sequence counter has
    moved, the parent itself has made no device call and run no task body,
    and what it did is allocate, fork, wait and deallocate, in this order. *)
Theorem invoke_top_forked_restores (I : invoker) (bitstream : string)
    (args : list value) (pid : Z) (w : world) :
  bitstream ≠ "" → pid ≠ 0 → pid ≠ -1 →
  let p := fresh (dom (regions w)) in
  let r := Invoker.invoke_top_forked I bitstream args pid w in
  regions r.2 = regions w ∧
  seqs r.2 = seqs w ∧
  host r.2 = host w ∧
  trace r.2 =
    trace w ++
    [Allocate 8 p; Fork pid; Wait pid (Invoker.W_EXITCODE 0 0);
     Deallocate p 8] ∧
  r.1 = (Invoker.invoke_top false I bitstream args
           Invoker.child_syscalls w).1.
Proof.
  intros Hne Hparent Hfork p r. subst r.
  assert ((Invoker.invoke_top_forked I bitstream args pid w).1 =
          (Invoker.invoke_top false I bitstream args
             Invoker.child_syscalls w).1) as Hsame.
  { rewrite invoke_top_forked_time by done.
    rewrite invoke_top_direct by done. cbn [fst].
    by rewrite invoke_fpga_spec. }
  rewrite Hsame. clear Hsame.
  cut (let r := Invoker.invoke_top_forked I bitstream args pid w in
       regions r.2 = regions w ∧ seqs r.2 = seqs w ∧ host r.2 = host w ∧
       trace r.2 =
         trace w ++
         [Allocate 8 p; Fork pid; Wait pid (Invoker.W_EXITCODE 0 0);
          Deallocate p 8]).
  { cbn zeta. tauto. }
  cbn zeta. unfold Invoker.invoke_top_forked.
  rewrite (invoke_top_child I bitstream args Invoker.child_syscalls w)
    by done.
  cbn zeta. rewrite invoke_top_parent_accepts; [| done | done |].
  2: { unfold child_succeeded. cbn. done. }
  cbn [snd]. unfold Invoker.deallocate, Invoker.wait, with_regions, emit.
  cbn [regions seqs host trace Invoker.parent_syscalls Invoker.wait_shared
       Invoker.wait_ret Invoker.wait_status fst snd Invoker.allocate].
  split; [| split; [done | split; [done |]]].
  - unfold Invoker.store, with_regions. cbn [regions].
    rewrite invoke_fpga_spec. cbn [snd regions]. fold p.
    assert (regions w !! p = None) as Hfresh
      by (apply not_elem_of_dom, is_fresh).
    apply map_eq. intros q. destruct (decide (q = p)) as [->|Hq].
    + by rewrite lookup_delete_eq.
    + rewrite lookup_delete_ne by done. rewrite lookup_union.
      rewrite !lookup_insert_ne by done.
      by destruct (regions w !! q).
  - cbn. rewrite <- !app_assoc. reflexivity.
Qed.

(** X8. The status checks of the parent, on the status words [wait] can
    leave: for a child that exited with a code from 0 to 255 they recover
    the code, so the parent goes on exactly when the code is 0; for a child
    killed by a signal from 1 to 127, with or without a core dump, the first
    check already fails. *)
Theorem wait_status_checks (code sig : Z) :
  (0 ≤ code < 256 →
     Invoker.WIFEXITED (Invoker.W_EXITCODE code 0) = true ∧
     Invoker.WEXITSTATUS (Invoker.W_EXITCODE code 0) = code) ∧
  (1 ≤ sig < 128 →
     Invoker.WIFEXITED (Invoker.W_EXITCODE 0 sig) = false ∧
     Invoker.WIFEXITED (Z.lor (Invoker.W_EXITCODE 0 sig) 128) = false) ∧
  (∀ k, 0 ≤ code < 256 →
        Invoker.fork_ret k ≠ -1 →
        Invoker.wait_ret k = Invoker.fork_ret k →
        Invoker.wait_status k = Invoker.W_EXITCODE code 0 →
        (child_succeeded k ↔ code = 0)).
Proof.
  assert (Forall (λ c, Invoker.WIFEXITED (Invoker.W_EXITCODE c 0) = true ∧
                       Invoker.WEXITSTATUS (Invoker.W_EXITCODE c 0) = c)
            (seqZ 0 256)) as Hcodes.
  { apply (bool_decide_unpack _). vm_compute. exact I. }
  assert (Forall (λ s, Invoker.WIFEXITED (Invoker.W_EXITCODE 0 s) = false ∧
                       Invoker.WIFEXITED
                         (Z.lor (Invoker.W_EXITCODE 0 s) 128) = false)
            (seqZ 1 127)) as Hsigs.
  { apply (bool_decide_unpack _). vm_compute. exact I. }
  rewrite Forall_forall in Hcodes. rewrite Forall_forall in Hsigs.
  split; [| split].
  - intros Hc. apply Hcodes. apply elem_of_seqZ. lia.
  - intros Hs. apply Hsigs. apply elem_of_seqZ. lia.
  - intros k Hc Hfork Hwait Hstatus. unfold child_succeeded.
    rewrite Hstatus.
    destruct (Hcodes code) as [-> ->]; [apply elem_of_seqZ; lia |].
    unfold Invoker.EXIT_SUCCESS. tauto.
Qed.

(** X9. When no sequence object fills two argument positions, the order in
    which the accessor calls of [functor_with_accessors] are evaluated,
    which C++ leaves open, does not show: right to left binds the values and
    leaves the counters that left to right does, and they are the values
    [set_fpga_args], whose order is fixed, passes to [SetArg]. *)
Theorem accessor_order_immaterial (ps : list param) (args : list arg)
    (w : world) :
  NoDup (seq_slots ps args) →
  let rtl := Invoker.functor_with_accessors_rtl ps args (seqs w) in
  rtl = Invoker.functor_with_accessors ps args (seqs w) ∧
  rtl.1 = read_args (seqs w) ps args ∧
  trace (Invoker.set_fpga_args ps args w) =
    trace w ++ (Frt <$> set_arg_calls 0 rtl.1) ∧
  seqs (Invoker.set_fpga_args ps args w) = rtl.2.
Proof.
  intros Hnd rtl. subst rtl.
  rewrite functor_with_accessors_order by done.
  split; [done |]. split; [by apply functor_with_accessors_values |].
  unfold Invoker.set_fpga_args. rewrite set_fpga_args_from_spec. done.
Qed.

(** X10. When a check of the parent fails, the parent stops where it is:
    the region it allocated stays allocated and nothing is deallocated; and
    when it is the fork that failed, the parent stops at the first check,
    before it waits for any child. *)
Theorem invoke_top_parent_abort (I : invoker) (bitstream : string)
    (args : list value) (k : Invoker.syscalls) (w : world) :
  bitstream ≠ "" → Invoker.fork_ret k ≠ 0 → ¬ child_succeeded k →
  let p := fresh (dom (regions w)) in
  let r := Invoker.invoke_top true I bitstream args k w in
  is_Some (regions r.2 !! p) ∧
  (∀ q len, Deallocate q len ∈ trace r.2 → Deallocate q len ∈ trace w) ∧
  host r.2 = host w ∧
  (Invoker.fork_ret k = -1 →
     r.1 = Invoker.Aborted "pid != -1" ∧
     trace r.2 = trace w ++ [Allocate 8 p; Fork (-1)]).
Proof.
  intros Hne Hparent Hfail p r. subst r.
  rewrite invoke_top_parent by done. cbn zeta. fold p.
  assert (∀ (tr : list event) q len,
            Deallocate q len ∈
              (trace w ++ [Allocate 8 p]) ++ [Fork (Invoker.fork_ret k)] ++ tr →
            (∀ ev, ev ∈ tr → ∃ a b, ev = Wait a b) →
            Deallocate q len ∈ trace w) as Hnone.
  { intros tr q len Hin Htr.
    rewrite !elem_of_app in Hin. destruct Hin as [[Hin | Hin] | [Hin | Hin]].
    - done.
    - apply list_elem_of_singleton in Hin. discriminate Hin.
    - apply list_elem_of_singleton in Hin. discriminate Hin.
    - destruct (Htr _ Hin) as (a & b & Heq). discriminate Heq. }
  assert (is_Some ((Invoker.wait_shared k ∪ <[p := 0]> (regions w)) !! p))
    as Hlive.
  { rewrite lookup_union.
    rewrite lookup_insert_eq. by destruct (Invoker.wait_shared k !! p). }
  destruct (Invoker.fork_ret k =? -1) eqn:Hfork.
  - apply Z.eqb_eq in Hfork. cbn. rewrite lookup_insert_eq.
    split; [by eexists |]. split.
    + intros q len Hin. apply (Hnone [] q len).
      * exact Hin.
      * intros ev Hev. inversion Hev.
    + split; [done |]. intros _. by rewrite Hfork, <- app_assoc.
  - assert (Invoker.fork_ret k ≠ -1) as Hfork' by by apply Z.eqb_neq.
    assert (∀ msg,
              let r := (Invoker.Aborted msg,
                        Invoker.wait k
                          (emit (Fork (Invoker.fork_ret k))
                             (Invoker.allocate 8 w).2)) in
              is_Some (regions r.2 !! p) ∧
              (∀ q len, Deallocate q len ∈ trace r.2 →
                        Deallocate q len ∈ trace w) ∧
              host r.2 = host w ∧
              (Invoker.fork_ret k = -1 →
                 r.1 = Invoker.Aborted "pid != -1" ∧
                 trace r.2 = trace w ++ [Allocate 8 p; Fork (-1)]))
      as Habort.
    { intros msg. cbn. split; [exact Hlive |]. split; [| done].
      intros q len Hin.
      apply (Hnone [Wait (Invoker.wait_ret k) (Invoker.wait_status k)]
               q len).
      - rewrite <- (app_assoc _ [Fork _]) in Hin. exact Hin.
      - intros ev Hev. apply list_elem_of_singleton in Hev. by eexists _, _. }
    destruct (Invoker.wait_ret k =? Invoker.fork_ret k) eqn:Hwait;
      [| apply Habort].
    destruct (Invoker.WIFEXITED (Invoker.wait_status k)) eqn:Hexited;
      [| apply Habort].
    destruct (Invoker.WEXITSTATUS (Invoker.wait_status k) =?
              Invoker.EXIT_SUCCESS) eqn:Hcode; [| apply Habort].
    destruct Hfail. unfold child_succeeded.
    apply Z.eqb_eq in Hwait. apply Z.eqb_eq in Hcode. done.
Qed.

End Driver.

(** ** The further properties at concrete calls *)

Section ConcreteFurther.
#[local] Existing Instance demo.demo_host.

(** With one sequence object in both positions, the orders of evaluation
    do show. *)
Example shared_seq_order_shows :
  (Invoker.functor_with_accessors (params demo.f2) demo.args_twice ∅).1 =
    [0; 1] ∧
  (Invoker.functor_with_accessors_rtl (params demo.f2) demo.args_twice ∅).1 =
    [1; 0].
Proof. split; reflexivity. Qed.

(** X2, witness: in [invoke<join, 3>(f2, 42, seq())], called when the
    counter is at 5, the third replica receives 7. *)
Lemma replica_value_at_witness :
  ∃ vs,
    trace (Task.invoke_mode_n demo.plain_task join 3 demo.I2
             demo.args_seq demo.w5).2 !! 2%nat =
      Some (Schedule false demo.f2 vs) ∧
    vs !! 1%nat = Some 7.
Proof.
  assert ((2 < Z.to_nat 3)%nat) as Hi by (cbn; lia).
  assert (Invoker.Params demo.I2 !! 1%nat = Some demo.int_param) as Hp
    by reflexivity.
  destruct (replica_value_at demo.plain_task join 3 demo.I2 demo.args_seq
              demo.w5 2 1 demo.int_param Hi Hp) as (vs & Htrace & _ & Hseq).
  exists vs. split; [exact Htrace |].
  exact (proj1 (Hseq demo.shared eq_refl eq_refl)).
Defined.

(** X3, witness: three replicas are one replica and then two. *)
Lemma invoke_mode_n_add_witness :
  Task.invoke_mode_n demo.plain_task join (1 + 2) demo.I2 demo.args_seq
    demo.w0 =
  Task.invoke_mode_n
    (Task.invoke_mode_n demo.plain_task join 1 demo.I2 demo.args_seq
       demo.w0).1 join 2 demo.I2 demo.args_seq
    (Task.invoke_mode_n demo.plain_task join 1 demo.I2 demo.args_seq
       demo.w0).2.
Proof.
  assert (0 ≤ 1) as Ha by lia. assert (0 ≤ 2) as Hb by lia.
  exact (proj1 (invoke_mode_n_add demo.plain_task join 1 2 demo.I2
                  demo.args_seq demo.w0 Ha Hb)).
Defined.

(** X4, witness: on the task object with mode override 1, two replicas of
    [f2] take 14 ns in the caller. *)
Lemma invoke_mode_n_sequential_witness :
  host (Task.invoke_mode_n demo.sequential_task join 2 demo.I2
          demo.args_seq demo.w0).2 = 14.
Proof.
  assert (0 < effective_mode demo.sequential_task join) as Hmode
    by (cbn; lia).
  exact (proj1 (proj2 (invoke_mode_n_sequential demo.sequential_task join 2
                         demo.I2 demo.args_seq demo.w0 Hmode))).
Defined.

(** X5, witness: [invoke<detach>] on the task object with mode override 1. *)
Lemma mode_override_decides_witness :
  Task.invoke_mode_name demo.sequential_task detach demo.I2 "child"
    demo.args_seq demo.w0 =
  (demo.sequential_task, Invoker.invoke demo.I2 1 demo.args_seq demo.w0).
Proof.
  assert (mode_override demo.sequential_task = Some 1) as Hover
    by reflexivity.
  exact (proj1 (mode_override_decides demo.sequential_task 1 detach join 2
                  demo.I2 "child" "" demo.args_seq demo.w0 Hover)).
Defined.

(** X6, witness: [f2(1, 2)] in software and on ["vadd.xo"]. *)
Lemma invoke_top_same_values_witness :
  seqs (Invoker.invoke_top false demo.I2 "vadd.xo" [1; 2]
          Invoker.child_syscalls demo.w0).2 = seqs demo.w0.
Proof.
  assert ("vadd.xo" ≠ "") as Hne by discriminate.
  destruct (invoke_top_same_values demo.I2 "vadd.xo" [1; 2]
              Invoker.child_syscalls Invoker.child_syscalls demo.w0 Hne)
    as (_ & _ & _ & Hseqs & _).
  exact Hseqs.
Defined.

(** X7, witness: the same run in a child with pid 77. *)
Lemma invoke_top_forked_restores_witness :
  regions (Invoker.invoke_top_forked demo.I2 "vadd.xo" [1; 2] 77
             demo.w0).2 = regions demo.w0.
Proof.
  assert ("vadd.xo" ≠ "") as Hne by discriminate.
  assert (77 ≠ 0) as Hparent by lia. assert (77 ≠ -1) as Hfork by lia.
  exact (proj1 (invoke_top_forked_restores demo.I2 "vadd.xo" [1; 2] 77
                  demo.w0 Hne Hparent Hfork)).
Defined.

(** X9, witness: [f2(42, seq())]. *)
Lemma accessor_order_immaterial_witness :
  Invoker.functor_with_accessors_rtl (params demo.f2) demo.args_seq
    (seqs demo.w0) =
  Invoker.functor_with_accessors (params demo.f2) demo.args_seq
    (seqs demo.w0).
Proof.
  assert (NoDup (seq_slots (params demo.f2) demo.args_seq)) as Hnd
    by (cbn; apply NoDup_singleton).
  exact (proj1 (accessor_order_immaterial (params demo.f2) demo.args_seq
                  demo.w0 Hnd)).
Defined.

(** X10, witness: the parent of a child that exited with status 1. *)
Lemma invoke_top_parent_abort_witness :
  is_Some (regions (Invoker.invoke_top true demo.I2 "vadd.xo" [1; 2]
                      demo.child_exited_1 demo.w0).2
           !! fresh (dom (regions demo.w0))).
Proof.
  assert ("vadd.xo" ≠ "") as Hne by discriminate.
  assert (Invoker.fork_ret demo.child_exited_1 ≠ 0) as Hparent
    by (cbn; lia).
  assert (¬ child_succeeded demo.child_exited_1) as Hfail.
  { intros (_ & _ & _ & Hcode). vm_compute in Hcode. discriminate Hcode. }
  exact (proj1 (invoke_top_parent_abort demo.I2 "vadd.xo" [1; 2]
                  demo.child_exited_1 demo.w0 Hne Hparent Hfail)).
Defined.

End ConcreteFurther.
